(** * Image normalisation, colour compositing and covariance ellipses

    A shallow embedding of the three functions of the notebooks that carry
    logic of their own:

    - [cov_to_ellipse]  (notebook "Plotting uncertainty"),
    - [logScaleImage]   (notebook "Working with FITS images"),
    - [colorize]        (notebook "Working with FITS images").

    Numbers are idealised: a numpy float is a real number, or one of the
    three non-finite values; arithmetic on finite values is exact (no
    rounding, no overflow, no signed zero).  Exceptions are explicit
    outcomes, and the arrays a caller passes to [colorize] live in a store,
    because [colorize] writes into them. *)

From Stdlib Require Import Reals Lra Lia Psatz List Arith PeanoNat NArith ZArith Bool Sorted Permutation
  FunctionalExtensionality.
Import ListNotations.
Local Open Scope R_scope.

(* ================================================================= *)
(** ** Outcomes of a Python call *)

Inductive exn : Type :=
| AssertionError
| IndexError
| ValueError
| LinAlgError.

Inductive outcome (A : Type) : Type :=
| Returns (a : A)
| Raises (e : exn).
Arguments Returns {A} a.
Arguments Raises {A} e.

Definition bind {A B : Type} (o : outcome A) (k : A -> outcome B) : outcome B :=
  match o with
  | Returns a => k a
  | Raises e => Raises e
  end.

Notation "x <- c ;; k" := (bind c (fun x => k))
  (at level 61, c at next level, right associativity).
Notation "' p <- c ;; k" := (bind c (fun p => k))
  (at level 61, p pattern, c at next level, right associativity).

(** The call raised, whatever the exception. *)
Definition raises {A : Type} (o : outcome A) : Prop :=
  match o with
  | Returns _ => False
  | Raises _ => True
  end.

(* ================================================================= *)
(** ** Idealised numpy floats *)

Inductive fval : Type :=
| Fin (r : R)
| PInf
| NInf
| NaN.

(** [np.isfinite] *)
Definition isfinite (x : fval) : Prop :=
  match x with
  | Fin _ => True
  | _ => False
  end.

(** Sign of a real, as the three-way test the IEEE rules need. *)
Inductive sign : Type := Neg | Zero | Pos.

Definition Rsign (r : R) : sign :=
  if Rlt_dec 0 r then Pos else if Rlt_dec r 0 then Neg else Zero.

(** An infinity of the given sign; a zero sign stands for the invalid
    products and quotients (0 * inf, 0 / 0). *)
Definition inf_of (s : sign) : fval :=
  match s with
  | Pos => PInf
  | Neg => NInf
  | Zero => NaN
  end.

Definition sign_mul (a b : sign) : sign :=
  match a, b with
  | Zero, _ | _, Zero => Zero
  | Pos, Pos | Neg, Neg => Pos
  | _, _ => Neg
  end.

Definition fadd (x y : fval) : fval :=
  match x, y with
  | NaN, _ | _, NaN => NaN
  | Fin a, Fin b => Fin (a + b)
  | PInf, NInf | NInf, PInf => NaN
  | PInf, _ | _, PInf => PInf
  | NInf, _ | _, NInf => NInf
  end.

Definition fsub (x y : fval) : fval :=
  match x, y with
  | NaN, _ | _, NaN => NaN
  | Fin a, Fin b => Fin (a - b)
  | PInf, PInf | NInf, NInf => NaN
  | PInf, _ | _, NInf => PInf
  | NInf, _ | _, PInf => NInf
  end.

Definition fmul (x y : fval) : fval :=
  match x, y with
  | NaN, _ | _, NaN => NaN
  | Fin a, Fin b => Fin (a * b)
  | Fin a, i => inf_of (sign_mul (Rsign a) (match i with NInf => Neg | _ => Pos end))
  | i, Fin b => inf_of (sign_mul (match i with NInf => Neg | _ => Pos end) (Rsign b))
  | PInf, PInf | NInf, NInf => PInf
  | _, _ => NInf
  end.

(** numpy's [true_divide]: a division by zero is not an exception, it
    yields an infinity, or NaN for 0/0. *)
Definition fdiv (x y : fval) : fval :=
  match x, y with
  | NaN, _ | _, NaN => NaN
  | Fin a, Fin b =>
      match Rsign b with
      | Zero => inf_of (Rsign a)
      | _ => Fin (a / b)
      end
  | Fin _, _ => Fin 0
  | PInf, Fin b => match Rsign b with Neg => NInf | _ => PInf end
  | NInf, Fin b => match Rsign b with Neg => PInf | _ => NInf end
  | _, _ => NaN
  end.

(** [np.log]: NaN below zero, minus infinity at zero. *)
Definition flog (x : fval) : fval :=
  match x with
  | Fin a =>
      match Rsign a with
      | Pos => Fin (ln a)
      | Zero => NInf
      | Neg => NaN
      end
  | PInf => PInf
  | _ => NaN
  end.

(** [np.sqrt]: NaN below zero. *)
Definition fsqrt (x : fval) : fval :=
  match x with
  | Fin a =>
      match Rsign a with
      | Neg => NaN
      | _ => Fin (sqrt a)
      end
  | PInf => PInf
  | _ => NaN
  end.

(** [np.clip(x, 0, 1)]; NaN stays NaN. *)
Definition clip01 (x : fval) : fval :=
  match x with
  | Fin a => if Rlt_dec a 0 then Fin 0 else if Rlt_dec 1 a then Fin 1 else Fin a
  | PInf => Fin 1
  | NInf => Fin 0
  | NaN => NaN
  end.


(** A value in the closed unit interval. *)
Definition in_unit (x : fval) : Prop :=
  match x with
  | Fin a => 0 <= a <= 1
  | _ => False
  end.

(* ================================================================= *)
(** ** 2x2 real matrices *)

Record mat2 : Type := Mat2 { m00 : R; m01 : R; m10 : R; m11 : R }.

Definition I2 : mat2 := Mat2 1 0 0 1.

Definition diag2 (a b : R) : mat2 := Mat2 a 0 0 b.

Definition mT (A : mat2) : mat2 := Mat2 (m00 A) (m10 A) (m01 A) (m11 A).

Definition mmul (A B : mat2) : mat2 :=
  Mat2 (m00 A * m00 B + m01 A * m10 B) (m00 A * m01 B + m01 A * m11 B)
       (m10 A * m00 B + m11 A * m10 B) (m10 A * m01 B + m11 A * m11 B).

Definition trace (A : mat2) : R := m00 A + m11 A.

Definition det (A : mat2) : R := m00 A * m11 A - m01 A * m10 A.

Definition symmetric (A : mat2) : Prop := m01 A = m10 A.

(** The quadratic form [v^T A v] at [v = (x, y)]. *)
Definition quad (A : mat2) (x y : R) : R :=
  m00 A * x * x + (m01 A + m10 A) * x * y + m11 A * y * y.

(** Positive semi-definite: the invariant of a covariance matrix. *)
Definition psd (A : mat2) : Prop :=
  symmetric A /\ forall x y, 0 <= quad A x y.

(** [l] is a root of the characteristic polynomial of [A]. *)
Definition eigenvalue (A : mat2) (l : R) : Prop :=
  l * l - trace A * l + det A = 0.

(** [l1] and [l2] are the two eigenvalues of [A], with multiplicity. *)
Definition eigenvalues (A : mat2) (l1 l2 : R) : Prop :=
  l1 + l2 = trace A /\ l1 * l2 = det A.

Definition orthogonal (U : mat2) : Prop :=
  mmul (mT U) U = I2 /\ mmul U (mT U) = I2.

(** What [scipy.linalg.svd] returns for a 2x2 matrix: [(U, s, Vh)]. *)
Definition svd_triple : Type := (mat2 * (R * R) * mat2)%type.

(** The contract of a singular value decomposition: [A = U diag(s) Vh]
    with orthogonal factors and singular values that are non-negative and
    sorted in non-increasing order. *)
Definition is_svd (A : mat2) (t : svd_triple) : Prop :=
  let '(U, (s1, s2), Vh) := t in
  orthogonal U /\ orthogonal Vh /\ 0 <= s2 <= s1 /\
  A = mmul U (mmul (diag2 s1 s2) Vh).

(** A decomposition routine meets its contract at [A]. *)
Definition svd_ok (svd : mat2 -> outcome svd_triple) (A : mat2) : Prop :=
  exists t, svd A = Returns t /\ is_svd A t.

(** *** A reference decomposition of a symmetric matrix

    For [A = [[a, b], [b, c]]] write [m = (a + c) / 2], [d = (a - c) / 2]
    and [r = sqrt (d^2 + b^2)]: the eigenvalues are [m + r] and [m - r],
    and the eigenvector of [m + r] makes the angle [t] with the x axis
    where [cos 2t = d / r] and [sin 2t = b / r].  The singular values are
    the magnitudes of the eigenvalues, larger first; the signs go to
    [Vh]. *)

Definition Rsgn (x : R) : R := if Rlt_dec x 0 then -1 else 1.

Definition svd_sym (A : mat2) : svd_triple :=
  let a := m00 A in
  let b := m01 A in
  let c := m11 A in
  let m := (a + c) / 2 in
  let d := (a - c) / 2 in
  let r := sqrt (d * d + b * b) in
  let co := if Req_dec_T r 0 then 1 else sqrt ((1 + d / r) / 2) in
  let si := if Req_dec_T r 0 then 0 else Rsgn b * sqrt ((1 - d / r) / 2) in
  let l1 := m + r in
  let l2 := m - r in
  if Rlt_dec m 0
  then (Mat2 (- si) co co si, (Rabs l2, Rabs l1),
        Mat2 (Rsgn l2 * - si) (Rsgn l2 * co) (Rsgn l1 * co) (Rsgn l1 * si))
  else (Mat2 co (- si) si co, (Rabs l1, Rabs l2),
        Mat2 (Rsgn l1 * co) (Rsgn l1 * si) (Rsgn l2 * - si) (Rsgn l2 * co)).

Definition svd_ref (A : mat2) : outcome svd_triple := Returns (svd_sym A).

(* ================================================================= *)
(** ** Covariance to ellipse *)

(** [np.arctan2 y x] on finite arguments, in radians, in (-PI, PI]. *)
Definition arctan2 (y x : R) : R :=
  match Rsign x with
  | Pos => atan (y / x)
  | Neg => if Rlt_dec y 0 then atan (y / x) - PI else atan (y / x) + PI
  | Zero =>
      match Rsign y with
      | Pos => PI / 2
      | Neg => - (PI / 2)
      | Zero => 0
      end
  end.

(** [np.degrees] and its inverse. *)
Definition degrees (x : R) : R := x * (180 / PI).
Definition radians (x : R) : R := x * (PI / 180).

(** [matplotlib.patches.Ellipse]: the four parameters the function sets. *)
Record Ellipse : Type := mkEllipse {
  xy : R * R;
  width : fval;
  height : fval;
  angle : R
}.

(** [[
def cov_to_ellipse(cov, pos, **kwargs):
    eigvec,eigval,V = sl.svd(cov,full_matrices=False)
    theta = np.degrees(np.arctan2(eigvec[1, 0], eigvec[0, 0]))
    width, height = 2 * np.sqrt(eigval)
    return Ellipse(xy=pos, width=width, height=height, angle=theta, **kwargs)
]]
    The decomposition routine is a parameter: the function only relies on
    what it returns. *)
Definition cov_to_ellipse (svd : mat2 -> outcome svd_triple)
    (cov : mat2) (pos : R * R) : outcome Ellipse :=
  '(eigvec, eigval, V) <- svd cov ;;
  let theta := degrees (arctan2 (m10 eigvec) (m00 eigvec)) in
  let width := fmul (Fin 2) (fsqrt (Fin (fst eigval))) in
  let height := fmul (Fin 2) (fsqrt (Fin (snd eigval))) in
  Returns (mkEllipse pos width height theta).

(** [[
    for row in t:
        cov = np.array(
            [[row['sx']**2, row['pxy'] * row['sx'] * row['sy']],
             [row['pxy'] * row['sx'] * row['sy'], row['sy']**2]])
]] *)
Record row : Type := mkRow { rx : R; ry : R; sx : R; sy : R; pxy : R }.

Definition row_cov (w : row) : mat2 :=
  Mat2 (sx w * sx w) (pxy w * sx w * sy w)
       (pxy w * sx w * sy w) (sy w * sy w).

(** The covariance matrix an ellipse stands for: the diagonal matrix of the
    squared half axes, rotated by the angle. *)
Definition rotation (t : R) : mat2 := Mat2 (cos t) (- sin t) (sin t) (cos t).

Definition ellipse_cov (w h ang : R) : mat2 :=
  let Q := rotation (radians ang) in
  mmul Q (mmul (diag2 ((w / 2) * (w / 2)) ((h / 2) * (h / 2))) (mT Q)).

(* ================================================================= *)
(** ** Two-dimensional arrays and the caller's store *)

(** A numpy array of shape [(length rows, ncols)]: the number of columns is
    kept apart so that an array without rows still has a shape. *)
Record ndarray : Type := mkArray { ncols : nat; rows : list (list fval) }.

Definition nrows (a : ndarray) : nat := length (rows a).

Definition shape (a : ndarray) : nat * nat := (nrows a, ncols a).

(** Every row has [ncols] entries. *)
Definition wf_array (a : ndarray) : Prop :=
  Forall (fun r => length r = ncols a) (rows a).

(** The entry at row [i], column [j]. *)
Definition px (a : ndarray) (i j : nat) : fval := nth j (nth i (rows a) []) NaN.

(** An elementwise operation with a scalar. *)
Definition amap (f : fval -> fval) (a : ndarray) : ndarray :=
  mkArray (ncols a) (map (map f) (rows a)).

Definition all_finite (a : ndarray) : Prop :=
  Forall (Forall isfinite) (rows a).

(** [np.ones((n, m))] *)
Definition ones (n m : nat) : ndarray := mkArray m (repeat (repeat (Fin 1) m) n).

(** Arrays are objects: a variable holds a reference, and two variables
    may hold the same one. *)
Definition ref : Type := nat.
Definition store : Type := ref -> ndarray.

Definition upd (h : store) (r : ref) (a : ndarray) : store :=
  fun r' => if Nat.eqb r' r then a else h r'.

(** The store in which every reference holds the array [a]. *)
Definition store_of (a : ndarray) : store := fun _ => a.

(** The store that holds the arrays of [l] at the references 0, 1, ... *)
Definition store_list (l : list ndarray) : store :=
  fun r => nth r l (mkArray 0 []).

(** Computations that read and write the store and may raise; what was
    written before an exception stays written. *)
Definition M (A : Type) : Type := store -> outcome A * store.

Definition ret {A : Type} (a : A) : M A := fun h => (Returns a, h).

Definition raise {A : Type} (e : exn) : M A := fun h => (Raises e, h).

Definition mbind {A B : Type} (c : M A) (k : A -> M B) : M B :=
  fun h =>
    match c h with
    | (Returns a, h') => k a h'
    | (Raises e, h') => (Raises e, h')
    end.

Definition lift {A : Type} (o : outcome A) : M A := fun h => (o, h).

Definition load (r : ref) : M ndarray := fun h => (Returns (h r), h).

Definition write (r : ref) (a : ndarray) : M unit := fun h => (Returns tt, upd h r a).

Notation "x <~ c ;; k" := (mbind c (fun x => k))
  (at level 61, c at next level, right associativity).
Notation "' p <~ c ;; k" := (mbind c (fun p => k))
  (at level 61, p pattern, c at next level, right associativity).
Notation "c ;;; k" := (mbind c (fun _ => k))
  (at level 61, right associativity).

(* ================================================================= *)
(** ** Percentile interval and logarithmic stretch *)

(** A percentage given as the fraction [pnum / pden], so that [10.] is
    [10 / 1] and [99.95] is [9995 / 100]. *)
Record percent : Type := mkPercent { pnum : N; pden : N }.

(** [interval.AsymmetricPercentileInterval(lower, upper)] *)
Record AsymmetricPercentileInterval : Type := mkInterval {
  lower_percentile : percent;
  upper_percentile : percent
}.

(** [values.ravel()] and the filter [values[np.isfinite(values)]]. *)
Definition ravel (a : ndarray) : list fval := concat (rows a).

Definition finite_values (l : list fval) : list R :=
  flat_map (fun x => match x with Fin r => [r] | _ => [] end) l.

Fixpoint insert (x : R) (l : list R) : list R :=
  match l with
  | [] => [x]
  | y :: t => if Rle_dec x y then x :: l else y :: insert x t
  end.

Definition np_sort (l : list R) : list R := fold_right insert [] l.

(** A binary natural number as a real. *)
Definition NR (x : N) : R := IZR (Z.of_N x).

(** A percentage [p] is at most [q]. *)
Definition percent_le (p q : percent) : Prop :=
  (0 < pden p)%N /\ (0 < pden q)%N /\ (pnum p * pden q <= pnum q * pden p)%N.

(** Modelled from the spec: [np.percentile], which the notebook reaches
    through the interval of astropy and which is not part of the
    repository.  The spec asks for "the lowPct-th percentile"; the model
    takes the default of numpy, linear interpolation between the two order
    statistics around the position [q / 100 * (n - 1)]. *)
Definition np_percentile (values : list R) (q : percent) : R :=
  let s := np_sort values in
  let n := length s in
  let k := (pnum q * N.of_nat (n - 1))%N in
  let den := (100 * pden q)%N in
  let lo := N.to_nat (k / den) in
  let hi := Nat.min (lo + 1) (n - 1) in
  let t := NR (k mod den) / NR den in
  nth lo s 0 + t * (nth hi s 0 - nth lo s 0).

(** Modelled from the spec: [get_limits] of the interval, not part of the
    repository.  Non-finite entries are left out of the percentile
    computation (the policy the spec recommends "matching the reference
    behavior"); without a finite entry there is nothing to index. *)
Definition get_limits_of (reagon : AsymmetricPercentileInterval) (a : ndarray)
  : outcome (R * R) :=
  match finite_values (ravel a) with
  | [] => Raises IndexError
  | vs => Returns (np_percentile vs (lower_percentile reagon),
                   np_percentile vs (upper_percentile reagon))
  end.

(** Modelled from the spec: the linear rescaling of the interval,
    [u = clamp((v - vmin) / (vmax - vmin), 0, 1)]. *)
Definition rescale (vmin vmax : R) (v : fval) : fval :=
  clip01 (fdiv (fsub v (Fin vmin)) (fsub (Fin vmax) (Fin vmin))).

(** The stretch object, with its coefficient. *)
Record LogStretch : Type := mkLogStretch { stretch_a : fval }.

(** The comparison [a <= 0] on a float: false for NaN. *)
Definition nonpositive (a : fval) : bool :=
  match a with
  | Fin r => if Rle_dec r 0 then true else false
  | NInf => true
  | _ => false
  end.

(** Modelled from the spec: [stretch.LogStretch(a=a)], the constructor of
    astropy, not part of the repository.  The spec gives the curve only;
    the constructor of the library rejects a coefficient that is not
    positive, [if a <= 0: raise ValueError("a must be > 0")], which a
    NaN or an infinite coefficient passes. *)
Definition LogStretch_init (a : fval) : outcome LogStretch :=
  if nonpositive a then Raises ValueError else Returns (mkLogStretch a).

(** Modelled from the spec: the logarithmic stretch,
    [f(u) = log(1 + a u) / log(1 + a)]. *)
Definition log_stretch (scale : LogStretch) (u : fval) : fval :=
  fdiv (flog (fadd (Fin 1) (fmul (stretch_a scale) u)))
       (flog (fadd (Fin 1) (stretch_a scale))).

(** The library calls read the array behind the reference and return a new
    array; per the spec they have no side effect. *)
Definition get_limits (reagon : AsymmetricPercentileInterval) (image : ref)
  : M (R * R) :=
  a <~ load image ;; lift (get_limits_of reagon a).

(** [(scale + reagon)(image)]: the interval first, then the stretch. *)
Definition composite_call (scale : LogStretch)
    (reagon : AsymmetricPercentileInterval) (image : ref) : M ndarray :=
  a <~ load image ;;
  ' (vmin, vmax) <~ lift (get_limits_of reagon a) ;;
  ret (amap (fun v => log_stretch scale (rescale vmin vmax v)) a).

(** What [logScaleImage] returns: the scaled image, or with [return_full]
    the tuple [(image_scaled, vmin, vmax, scale)]. *)
Inductive scaled : Type :=
| Scaled (image_scaled : ndarray)
| ScaledFull (image_scaled : ndarray) (vmin vmax : R) (scale : LogStretch).

Definition image_of (s : scaled) : ndarray :=
  match s with
  | Scaled a => a
  | ScaledFull a _ _ _ => a
  end.

(** [[
def logScaleImage(image, return_full=False):
    reagon = interval.AsymmetricPercentileInterval(10., 99.95)
    vmin, vmax = reagon.get_limits(image)
    a = vmax/vmin - 1
    scale = stretch.LogStretch(a=a)
    image_scaled = (scale + reagon)(image)
    if return_full:
        return image_scaled, vmin, vmax, scale
    return image_scaled
]] *)
Definition logScaleImage (image : ref) (return_full : bool) : M scaled :=
  let reagon := mkInterval (mkPercent 10 1) (mkPercent 9995 100) in
  ' (vmin, vmax) <~ get_limits reagon image ;;
  let a := fsub (fdiv (Fin vmax) (Fin vmin)) (Fin 1) in
  scale <~ lift (LogStretch_init a) ;;
  image_scaled <~ composite_call scale reagon image ;;
  if return_full
  then ret (ScaledFull image_scaled vmin vmax scale)
  else ret (Scaled image_scaled).

(** The limits [logScaleImage] derives from an array. *)
Definition limits (a : ndarray) : outcome (R * R) :=
  get_limits_of (mkInterval (mkPercent 10 1) (mkPercent 9995 100)) a.



(** The map [logScaleImage] applies to each pixel, given the limits, once
    the stretch has been constructed. *)
Definition pixel_map (vmin vmax : R) (v : fval) : fval :=
  log_stretch (mkLogStretch (fsub (fdiv (Fin vmax) (Fin vmin)) (Fin 1)))
    (rescale vmin vmax v).

(* ================================================================= *)
(** ** Colour compositing *)

(** A colour as an RGB triple, one of the formats matplotlib accepts. *)
Definition color : Type := (R * R * R)%type.

Definition unit_dec (x : R) : bool :=
  if Rle_dec 0 x then (if Rle_dec x 1 then true else false) else false.

(** [cc.to_rgb(color)]: the triple itself, provided every channel lies in
    [0, 1]; matplotlib rejects anything else. *)
Definition to_rgb (c : color) : outcome color :=
  let '(r, g, b) := c in
  if unit_dec r && unit_dec g && unit_dec b then Returns c else Raises ValueError.

(** An array of shape [(3, N, M)], as its three planes. *)
Record cube : Type := mkCube { plane_r : ndarray; plane_g : ndarray; plane_b : ndarray }.

(** [img[~np.isfinite(img)] = 0.0], on one entry. *)
Definition zero_nonfinite (x : fval) : fval :=
  match x with
  | Fin r => Fin r
  | _ => Fin 0
  end.

(** [rgb * img] for [rgb] of shape [(3, 1, 1)]. *)
Definition mul_rgb (rgb : color) (img : ndarray) : cube :=
  let '(r, g, b) := rgb in
  mkCube (amap (fmul (Fin r)) img) (amap (fmul (Fin g)) img) (amap (fmul (Fin b)) img).

(** *** Broadcasting *)

(** The common length of two axes, when there is one. *)
Definition bdim (n1 n2 : nat) : option nat :=
  if Nat.eqb n1 n2 then Some n1
  else if Nat.eqb n1 1 then Some n2
  else if Nat.eqb n2 1 then Some n1
  else None.

(** An axis of length 1 is repeated to length [n]. *)
Definition stretch_to {A : Type} (n : nat) (d : A) (l : list A) : list A :=
  if Nat.eqb (length l) n then l else repeat (hd d l) n.

Definition map2 {A B C : Type} (f : A -> B -> C) (l1 : list A) (l2 : list B)
  : list C :=
  map (fun p => f (fst p) (snd p)) (combine l1 l2).

(** A binary elementwise operation on two arrays, with numpy's
    broadcasting; shapes that cannot be broadcast raise [ValueError]. *)
Definition broadcast2 (f : fval -> fval -> fval) (a b : ndarray) : outcome ndarray :=
  match bdim (nrows a) (nrows b), bdim (ncols a) (ncols b) with
  | Some n, Some m =>
      Returns (mkArray m
        (map2 (fun ra rb => map2 f (stretch_to m NaN ra) (stretch_to m NaN rb))
              (stretch_to n [] (rows a)) (stretch_to n [] (rows b))))
  | _, _ => Raises ValueError
  end.

Definition cube_map (f : fval -> fval) (c : cube) : cube :=
  mkCube (amap f (plane_r c)) (amap f (plane_g c)) (amap f (plane_b c)).

Definition cube_op (f : fval -> fval -> fval) (x y : cube) : outcome cube :=
  r <- broadcast2 f (plane_r x) (plane_r y) ;;
  g <- broadcast2 f (plane_g x) (plane_g y) ;;
  b <- broadcast2 f (plane_b x) (plane_b y) ;;
  Returns (mkCube r g b).

Definition one_minus (x : fval) : fval := fsub (Fin 1) x.

(** [1 - ((1 - base) * (1 - layer))] *)
Definition screen (base layer : cube) : outcome cube :=
  p <- cube_op fmul (cube_map one_minus base) (cube_map one_minus layer) ;;
  Returns (cube_map one_minus p).

(** [[
    for layer in images[1:]:
        base = 1 - ((1 - base) * (1 - layer))
]] *)
Fixpoint screen_layers (base : cube) (layers : list cube) : outcome cube :=
  match layers with
  | [] => Returns base
  | layer :: rest => b <- screen base layer ;; screen_layers b rest
  end.

(** An array of shape [(N, M, 3)]. *)
Record rgb_image : Type := mkRgb {
  rgb_ncols : nat;
  rgb_rows : list (list (fval * fval * fval))
}.

Definition zip3 {A : Type} (l1 l2 l3 : list A) : list (A * A * A) :=
  combine (combine l1 l2) l3.

(** [np.rollaxis(base, 0, 3)] *)
Definition rollaxis (c : cube) : rgb_image :=
  mkRgb (ncols (plane_r c))
    (map (fun t => zip3 (fst (fst t)) (snd (fst t)) (snd t))
         (zip3 (rows (plane_r c)) (rows (plane_g c)) (rows (plane_b c)))).

(** [[
    for img, color in zip(args, colors):
        rgb = np.array(cc.to_rgb(color)).reshape(3, 1, 1)
        img[~np.isfinite(img)] = 0.0
        images.append(rgb * img)
]] *)
Fixpoint colorize_loop (pairs : list (ref * color)) (images : list cube)
  : M (list cube) :=
  match pairs with
  | [] => ret images
  | (img, c) :: rest =>
      rgb <~ lift (to_rgb c) ;;
      a <~ load img ;;
      write img (amap zero_nonfinite a) ;;;
      a' <~ load img ;;
      colorize_loop rest (images ++ [mul_rgb rgb a'])
  end.

(** [[
def colorize( *args, colors=[]):
    assert len(args) == len(colors), '...'
    images = []
    for img, color in zip(args, colors): ...
    base = images[0]
    for layer in images[1:]:
        base = 1 - ((1 - base) * (1 - layer))
    return np.rollaxis(base, 0, 3)
]] *)
Definition colorize (args : list ref) (colors : list color) : M rgb_image :=
  if negb (Nat.eqb (length args) (length colors)) then raise AssertionError
  else
    images <~ colorize_loop (combine args colors) [] ;;
    match images with
    | [] => raise IndexError
    | base :: layers =>
        base' <~ lift (screen_layers base layers) ;;
        ret (rollaxis base')
    end.

(** The per-pixel reading of the compositing: the first weighted layer,
    then one screen step per further layer, in input order. *)
Definition screen_px (base layer : fval) : fval :=
  one_minus (fmul (one_minus base) (one_minus layer)).

Definition composite_px (weighted : list fval) : fval :=
  match weighted with
  | [] => NaN
  | v :: rest => fold_left screen_px rest v
  end.

(** The shape numpy gives to the result of broadcasting a list of shapes
    pairwise, from the left. *)
Definition bshape (s1 s2 : nat * nat) : option (nat * nat) :=
  match bdim (fst s1) (fst s2), bdim (snd s1) (snd s2) with
  | Some n, Some m => Some (n, m)
  | _, _ => None
  end.

Fixpoint bshapes (s : nat * nat) (l : list (nat * nat)) : option (nat * nat) :=
  match l with
  | [] => Some s
  | t :: rest =>
      match bshape s t with
      | Some u => bshapes u rest
      | None => None
      end
  end.

(** *** Vocabulary for the properties of [colorize] *)

Inductive channel : Type := Red | Green | Blue.

Definition plane_of (ch : channel) (c : cube) : ndarray :=
  match ch with
  | Red => plane_r c
  | Green => plane_g c
  | Blue => plane_b c
  end.

Definition chan (ch : channel) (c : color) : R :=
  match ch with
  | Red => fst (fst c)
  | Green => snd (fst c)
  | Blue => snd c
  end.

(** The entry at row [i], column [j] of an array of shape [(N, M, 3)]. *)
Definition rgb_px (a : rgb_image) (i j : nat) : fval * fval * fval :=
  nth j (nth i (rgb_rows a) []) (NaN, NaN, NaN).

Definition rgb_shape (a : rgb_image) : nat * nat :=
  (length (rgb_rows a), rgb_ncols a).

(** A colour matplotlib accepts. *)
Definition valid_color (c : color) : Prop :=
  0 <= chan Red c <= 1 /\ 0 <= chan Green c <= 1 /\ 0 <= chan Blue c <= 1.

(** The store in which the arrays behind [rs] have had their non-finite
    entries overwritten with 0. *)
Definition sanitized (h : store) (rs : list ref) : store :=
  fun r => if existsb (Nat.eqb r) rs then amap zero_nonfinite (h r) else h r.

(** The three planes are well-formed arrays of shape [(n, m)]. *)
Definition cube_ok (n m : nat) (c : cube) : Prop :=
  forall ch, wf_array (plane_of ch c) /\ shape (plane_of ch c) = (n, m).

(** The three planes have one shape. *)
Definition cube_shape (c : cube) : nat * nat := shape (plane_r c).

Definition uniform (c : cube) : Prop :=
  forall ch, shape (plane_of ch c) = cube_shape c.

(** The layer [colorize] builds from the array behind [r] and the
    colour [c]. *)
Definition layer_of (h : store) (p : ref * color) : cube :=
  mul_rgb (snd p) (amap zero_nonfinite (h (fst p))).

(** The weighted pixel of one layer: the colour channel times the pixel,
    a non-finite pixel counting as 0. *)
Definition weighted_px (h : store) (ch : channel) (i j : nat) (p : ref * color)
  : fval :=
  fmul (Fin (chan ch (snd p))) (zero_nonfinite (px (h (fst p)) i j)).

Definition red : color := (1, 0, 0).
Definition green : color := (0, 1, 0).

(* ================================================================= *)
(** ** Drawing the ellipses of a table *)

(** The figure as far as [plot_ellipse] is concerned: the current axes,
    which [plt.gca()] returns, and for every axes the artists added to it,
    in the order of their addition. *)
Record figure : Type := mkFigure {
  gca : nat;
  artists : nat -> list Ellipse
}.

(** [ax.add_artist(ellip)] *)
Definition add_artist (ax : nat) (ellip : Ellipse) (fig : figure) : figure :=
  mkFigure (gca fig)
    (fun a => if Nat.eqb a ax then artists fig a ++ [ellip] else artists fig a).

(** [[
    for row in t:
        cov = np.array(...)
        ellip = cov_to_ellipse(cov, [row['x'], row['y']], **kwargs)
        ax.add_artist(ellip)
]]
    An exception ends the loop; what was added before it stays added. *)
Fixpoint plot_rows (svd : mat2 -> outcome svd_triple) (t : list row) (ax : nat)
    (fig : figure) : outcome unit * figure :=
  match t with
  | [] => (Returns tt, fig)
  | w :: rest =>
      let cov := row_cov w in
      match cov_to_ellipse svd cov (rx w, ry w) with
      | Returns ellip => plot_rows svd rest ax (add_artist ax ellip fig)
      | Raises e => (Raises e, fig)
      end
  end.

(** [[
def plot_ellipse(t, ax=None, **kwargs):
    if ax is None:
        ax = plt.gca()
    for row in t: ...
]] *)
Definition plot_ellipse (svd : mat2 -> outcome svd_triple) (t : list row)
    (ax : option nat) (fig : figure) : outcome unit * figure :=
  let ax := match ax with
            | None => gca fig
            | Some a => a
            end in
  plot_rows svd t ax fig.

(** The axes [plot_ellipse] draws on. *)
Definition target_axes (ax : option nat) (fig : figure) : nat :=
  match ax with
  | None => gca fig
  | Some a => a
  end.

(** The ellipse [plot_ellipse] draws for a row: centred at the point, with
    finite axes, the width being the larger. *)
Definition drawn_for (w : row) (e : Ellipse) : Prop :=
  xy e = (rx w, ry w) /\
  exists wd ht, width e = Fin wd /\ height e = Fin ht /\ 0 <= ht <= wd.

(* ================================================================= *)
(** ** The squared exponential covariance *)






(* ================================================================= *)
(** ** Stacking three bands into an RGB image *)

(** An assignment [target[...] = src] into a slice of shape [(n, m)]: the
    source is broadcast to the shape of the slice, an axis of the source
    being repeated only when its length is 1. *)
Definition assignable (k n : nat) : bool := Nat.eqb k n || Nat.eqb k 1.

Definition broadcast_to (n m : nat) (src : ndarray) : outcome ndarray :=
  if assignable (nrows src) n && assignable (ncols src) m
  then Returns (mkArray m (map (stretch_to m NaN) (stretch_to n [] (rows src))))
  else Raises ValueError.

(** [[
RGB_image = np.zeros([image_b_scaled.shape[0], image_b_scaled.shape[1], 3])
RGB_image[:, :, 0] = image_ir_scaled
RGB_image[:, :, 1] = image_r_scaled
RGB_image[:, :, 2] = image_b_scaled
RGB_image[~np.isfinite(RGB_image)] = 0.0
]] *)
Definition RGB_image (image_b_scaled image_r_scaled image_ir_scaled : ndarray)
  : outcome rgb_image :=
  let n := nrows image_b_scaled in
  let m := ncols image_b_scaled in
  r <- broadcast_to n m image_ir_scaled ;;
  g <- broadcast_to n m image_r_scaled ;;
  b <- broadcast_to n m image_b_scaled ;;
  Returns (rollaxis (cube_map zero_nonfinite (mkCube r g b))).

(* ================================================================= *)
(** ** Vocabulary for the further properties *)

(** The index an entry is read from when an axis of length [k] is
    broadcast to length [n]. *)
Definition bidx (k n i : nat) : nat := if Nat.eqb k n then i else 0%nat.

(** An array multiplied by a scalar. *)
Definition ascale (c : R) (a : ndarray) : ndarray := amap (fmul (Fin c)) a.

(** Every entry lies in [0, 1] or is not finite. *)
Definition unit_or_nonfinite (x : fval) : Prop :=
  match x with
  | Fin a => 0 <= a <= 1
  | _ => True
  end.

(** The product of the complements [1 - w] of a list of reals. *)
Definition complement_product (ws : list R) : R :=
  fold_right (fun w p => (1 - w) * p) 1 ws.

(** The real weight of one layer at one pixel: the colour channel times
    the pixel, a non-finite pixel counting as 0. *)
Definition weight (h : store) (ch : channel) (i j : nat) (p : ref * color) : R :=
  chan ch (snd p) *
  match px (h (fst p)) i j with
  | Fin v => v
  | _ => 0
  end.

Definition black : color := (0, 0, 0).

(** The shape of [src] can be assigned into a slice of shape [(n, m)]. *)
Definition fits (src : ndarray) (n m : nat) : Prop :=
  (nrows src = n \/ nrows src = 1%nat) /\ (ncols src = m \/ ncols src = 1%nat).

(** The image of an outcome of [logScaleImage], or its exception. *)
Definition outcome_image (o : outcome scaled) : outcome ndarray :=
  match o with
  | Returns s => Returns (image_of s)
  | Raises e => Raises e
  end.

(* ================================================================= *)
(** * Properties *)

(** ** Matrix algebra *)

Lemma mat2_eq (A B : mat2) :
  m00 A = m00 B -> m01 A = m01 B -> m10 A = m10 B -> m11 A = m11 B -> A = B.
Proof. destruct A, B; simpl; intros; subst; reflexivity. Qed.

Lemma mmul_assoc (A B C : mat2) : mmul A (mmul B C) = mmul (mmul A B) C.
Proof. apply mat2_eq; simpl; ring. Qed.

Lemma mT_mmul (A B : mat2) : mT (mmul A B) = mmul (mT B) (mT A).
Proof. apply mat2_eq; simpl; ring. Qed.

Lemma mT_involutive (A : mat2) : mT (mT A) = A.
Proof. destruct A; reflexivity. Qed.

Lemma mmul_I2_l (A : mat2) : mmul I2 A = A.
Proof. apply mat2_eq; simpl; ring. Qed.

Lemma mmul_I2_r (A : mat2) : mmul A I2 = A.
Proof. apply mat2_eq; simpl; ring. Qed.

Lemma det_mmul (A B : mat2) : det (mmul A B) = det A * det B.
Proof. unfold det; simpl; ring. Qed.

Lemma det_mT (A : mat2) : det (mT A) = det A.
Proof. unfold det; simpl; ring. Qed.

Lemma det_I2 : det I2 = 1.
Proof. unfold det; simpl; ring. Qed.

Lemma trace_mmul_comm (A B : mat2) : trace (mmul A B) = trace (mmul B A).
Proof. unfold trace; simpl; ring. Qed.

Lemma symmetric_mT (A : mat2) : symmetric A -> mT A = A.
Proof. destruct A; unfold symmetric; simpl; intros ->; reflexivity. Qed.

Lemma orthogonal_det_sq (U : mat2) : orthogonal U -> det U * det U = 1.
Proof.
  intros [H _].
  assert (E : det (mmul (mT U) U) = det I2) by (rewrite H; reflexivity).
  rewrite det_mmul, det_mT, det_I2 in E. exact E.
Qed.

(** The entries of an orthogonal matrix: unit columns and rows,
    orthogonal to each other. *)
Lemma orthogonal_entries (U : mat2) :
  orthogonal U ->
  m00 U * m00 U + m10 U * m10 U = 1 /\
  m01 U * m01 U + m11 U * m11 U = 1 /\
  m00 U * m01 U + m10 U * m11 U = 0 /\
  m00 U * m00 U + m01 U * m01 U = 1 /\
  m10 U * m10 U + m11 U * m11 U = 1 /\
  m00 U * m10 U + m01 U * m11 U = 0.
Proof.
  intros [H1 H2]. destruct U as [a b c d]; simpl.
  unfold mmul, mT, I2 in *; simpl in *.
  injection H1 as E1 E2 E3 E4. injection H2 as F1 F2 F3 F4.
  repeat split; lra.
Qed.

(** ** The singular values of a symmetric matrix *)

(** The Gram matrix of a decomposed matrix. *)
Lemma svd_gram (A : mat2) U s1 s2 Vh :
  is_svd A (U, (s1, s2), Vh) ->
  mmul A (mT A) = mmul U (mmul (diag2 (s1 * s1) (s2 * s2)) (mT U)).
Proof.
  intros (HU & HV & Hs & ->).
  destruct HV as [_ HV].
  set (S := diag2 s1 s2).
  assert (E : mmul (mmul S Vh) (mT (mmul S Vh)) = diag2 (s1 * s1) (s2 * s2)).
  { rewrite mT_mmul, mmul_assoc, <- (mmul_assoc S Vh (mT Vh)), HV, mmul_I2_r.
    apply mat2_eq; simpl; ring. }
  rewrite mT_mmul, mmul_assoc, <- (mmul_assoc U (mmul S Vh)), E.
  rewrite mmul_assoc. reflexivity.
Qed.

Lemma svd_det (A : mat2) U s1 s2 Vh :
  is_svd A (U, (s1, s2), Vh) -> det A * det A = (s1 * s2) * (s1 * s2).
Proof.
  intros (HU & HV & Hs & ->).
  apply orthogonal_det_sq in HU, HV.
  rewrite !det_mmul.
  replace (det (diag2 s1 s2)) with (s1 * s2) by (unfold det; simpl; ring).
  transitivity ((det U * det U) * (s1 * s2 * (s1 * s2)) * (det Vh * det Vh)); [ring|].
  rewrite HU, HV. ring.
Qed.

Lemma svd_trace_sq (A : mat2) U s1 s2 Vh :
  is_svd A (U, (s1, s2), Vh) -> trace (mmul A (mT A)) = s1 * s1 + s2 * s2.
Proof.
  intros H. rewrite (svd_gram _ _ _ _ _ H).
  destruct H as (HU & _).
  rewrite trace_mmul_comm, <- mmul_assoc.
  destruct HU as [HU _]. rewrite HU, mmul_I2_r. unfold trace; simpl; ring.
Qed.

(** Two non-negative pairs, each sorted, with the same sum of squares and
    the same product, are the same pair. *)
Lemma sorted_pair_unique (p q s1 s2 : R) :
  0 <= q <= p -> 0 <= s2 <= s1 ->
  p * p + q * q = s1 * s1 + s2 * s2 -> p * q = s1 * s2 ->
  s1 = p /\ s2 = q.
Proof.
  intros Hp Hs Hsq Hpr.
  assert (Hsum : p + q = s1 + s2).
  { assert ((p + q) * (p + q) = (s1 + s2) * (s1 + s2)) by nra. nra. }
  assert (Hdif : p - q = s1 - s2).
  { assert ((p - q) * (p - q) = (s1 - s2) * (s1 - s2)) by nra. nra. }
  lra.
Qed.

(** The singular values of a symmetric matrix are the magnitudes of its
    eigenvalues, the larger first. *)
Lemma svd_sym_values (A : mat2) U s1 s2 Vh l1 l2 :
  symmetric A -> eigenvalues A l1 l2 -> Rabs l2 <= Rabs l1 ->
  is_svd A (U, (s1, s2), Vh) ->
  s1 = Rabs l1 /\ s2 = Rabs l2.
Proof.
  intros Hsym [Htr Hdet] Hord H.
  pose proof (svd_det _ _ _ _ _ H) as Hd.
  pose proof (svd_trace_sq _ _ _ _ _ H) as Ht.
  destruct H as (_ & _ & Hs & _).
  apply sorted_pair_unique; auto.
  - split; [apply Rabs_pos | assumption].
  - assert (E1 : Rabs l1 * Rabs l1 = l1 * l1) by (rewrite <- Rabs_mult; apply Rabs_pos_eq; nra).
    assert (E2 : Rabs l2 * Rabs l2 = l2 * l2) by (rewrite <- Rabs_mult; apply Rabs_pos_eq; nra).
    rewrite E1, E2, <- Ht.
    unfold trace, det, symmetric in *. destruct A as [a b c d]; simpl in *. subst c.
    nra.
  - assert (E : (Rabs l1 * Rabs l2) * (Rabs l1 * Rabs l2) = (s1 * s2) * (s1 * s2)).
    { rewrite <- Rabs_mult, <- Rabs_mult, Rabs_pos_eq by nra. rewrite Hdet, Hd. ring. }
    assert (0 <= Rabs l1 * Rabs l2) by (apply Rmult_le_pos; apply Rabs_pos).
    assert (0 <= s1 * s2) by nra.
    nra.
Qed.

(** ** Signs *)

Lemma Rsign_pos r : 0 < r -> Rsign r = Pos.
Proof. intros H; unfold Rsign; destruct (Rlt_dec 0 r); [reflexivity | lra]. Qed.

Lemma Rsign_neg r : r < 0 -> Rsign r = Neg.
Proof.
  intros H; unfold Rsign; destruct (Rlt_dec 0 r); [lra|].
  destruct (Rlt_dec r 0); [reflexivity | lra].
Qed.

Lemma Rsign_zero : Rsign 0 = Zero.
Proof.
  unfold Rsign; destruct (Rlt_dec 0 0); [lra|]. reflexivity.
Qed.

Lemma Rsign_cases r :
  (0 < r /\ Rsign r = Pos) \/ (r < 0 /\ Rsign r = Neg) \/ (r = 0 /\ Rsign r = Zero).
Proof.
  destruct (Rtotal_order 0 r) as [H | [H | H]].
  - left; split; [assumption | apply Rsign_pos; assumption].
  - right; right; split; [lra | subst; apply Rsign_zero].
  - right; left; split; [assumption | apply Rsign_neg; assumption].
Qed.

(** ** The angle of a unit vector *)

Lemma sqrt_slope (x y : R) :
  x <> 0 -> x * x + y * y = 1 -> sqrt (1 + (y / x)²) = / Rabs x.
Proof.
  intros Hx H.
  assert (Ha : 0 < Rabs x) by (apply Rabs_pos_lt; assumption).
  apply sqrt_lem_1.
  - unfold Rsqr. assert (0 <= (y / x) * (y / x)) by nra. lra.
  - left; apply Rinv_0_lt_compat; assumption.
  - assert (E : Rabs x * Rabs x = x * x) by (rewrite <- Rabs_mult; apply Rabs_pos_eq; nra).
    assert (Hx2 : x * x <> 0) by nra.
    unfold Rsqr.
    replace (/ Rabs x * / Rabs x) with (/ (x * x)) by (rewrite <- E; field; lra).
    field_simplify_eq; [lra | assumption].
Qed.

Lemma arctan2_unit (x y : R) :
  x * x + y * y = 1 ->
  cos (arctan2 y x) = x /\ sin (arctan2 y x) = y.
Proof.
  intros H. unfold arctan2.
  destruct (Rsign_cases x) as [[Hx ->] | [[Hx ->] | [Hx ->]]].
  - rewrite cos_atan, sin_atan, sqrt_slope by lra.
    rewrite Rabs_pos_eq by lra. split; field; lra.
  - assert (C : - cos (atan (y / x)) = x /\ - sin (atan (y / x)) = y).
    { rewrite cos_atan, sin_atan, sqrt_slope by lra.
      rewrite Rabs_left by lra. split; field; lra. }
    destruct C as [C1 C2].
    destruct (Rlt_dec y 0).
    + rewrite cos_minus, sin_minus, cos_PI, sin_PI. split; lra.
    + rewrite neg_cos, neg_sin. split; assumption.
  - subst x. assert (Hy : y * y = 1) by lra.
    destruct (Rsign_cases y) as [[Hy' ->] | [[Hy' ->] | [Hy' ->]]].
    + rewrite cos_PI2, sin_PI2. split; nra.
    + rewrite cos_neg, sin_neg, cos_PI2, sin_PI2. split; nra.
    + nra.
Qed.

Lemma arctan2_0_1 : arctan2 0 1 = 0.
Proof.
  unfold arctan2. rewrite Rsign_pos by lra.
  replace (0 / 1) with 0 by field. apply atan_0.
Qed.

Lemma arctan2_0_m1 : arctan2 0 (-1) = PI.
Proof.
  unfold arctan2. rewrite Rsign_neg by lra.
  destruct (Rlt_dec 0 0); [lra|].
  replace (0 / -1) with 0 by field. rewrite atan_0. ring.
Qed.

Lemma radians_degrees (x : R) : radians (degrees x) = x.
Proof. unfold radians, degrees. field. apply PI_neq0. Qed.

Lemma degrees_PI : degrees PI = 180.
Proof. unfold degrees. field. apply PI_neq0. Qed.

Lemma degrees_0 : degrees 0 = 0.
Proof. unfold degrees. ring. Qed.

(** ** The reference decomposition meets the contract *)

Lemma Rabs_Rsgn (x : R) : Rabs x * Rsgn x = x.
Proof.
  unfold Rsgn. destruct (Rlt_dec x 0).
  - rewrite Rabs_left by assumption. ring.
  - rewrite Rabs_pos_eq by lra. ring.
Qed.

Lemma Rsgn_sq (x : R) : Rsgn x * Rsgn x = 1.
Proof. unfold Rsgn. destruct (Rlt_dec x 0); ring. Qed.

Lemma Rsgn_Rabs (x : R) : Rsgn x * Rabs x = x.
Proof. rewrite Rmult_comm. apply Rabs_Rsgn. Qed.

(** Half-angle formulas: the cosine and sine of the angle [t] with
    [cos 2t = d / r] and [sin 2t = b / r]. *)
Lemma half_angle (d b r : R) :
  0 < r -> r * r = d * d + b * b ->
  let co := sqrt ((1 + d / r) / 2) in
  let si := Rsgn b * sqrt ((1 - d / r) / 2) in
  co * co = (1 + d / r) / 2 /\ si * si = (1 - d / r) / 2 /\
  co * si = b / (2 * r).
Proof.
  intros Hr Hrr co si.
  assert (Hd : -1 <= d / r <= 1).
  { assert (- r <= d <= r) by nra.
    split.
    - apply Rmult_le_reg_r with r; [assumption|]. unfold Rdiv.
      rewrite Rmult_assoc, Rinv_l by lra. lra.
    - apply Rmult_le_reg_r with r; [assumption|]. unfold Rdiv.
      rewrite Rmult_assoc, Rinv_l by lra. lra. }
  assert (Hco : co * co = (1 + d / r) / 2) by (apply sqrt_sqrt; lra).
  assert (Hsi : si * si = (1 - d / r) / 2).
  { unfold si.
    transitivity ((Rsgn b * Rsgn b) *
                  (sqrt ((1 - d / r) / 2) * sqrt ((1 - d / r) / 2))); [ring|].
    rewrite Rsgn_sq, sqrt_sqrt by lra. ring. }
  repeat split; try assumption.
  unfold co, si.
  transitivity (Rsgn b * (sqrt ((1 + d / r) / 2) * sqrt ((1 - d / r) / 2))); [ring|].
  rewrite <- sqrt_mult by lra.
  rewrite (sqrt_lem_1 _ (Rabs b / (2 * r))).
  - unfold Rdiv. rewrite <- Rmult_assoc, Rsgn_Rabs. reflexivity.
  - apply Rmult_le_pos; lra.
  - apply Rmult_le_pos; [apply Rabs_pos|]. left. apply Rinv_0_lt_compat. lra.
  - assert (E : Rabs b * Rabs b = b * b) by (rewrite <- Rabs_mult; apply Rabs_pos_eq; nra).
    transitivity ((Rabs b * Rabs b) / (4 * (r * r))); [field; lra|].
    rewrite E. replace (b * b) with (r * r - d * d) by lra. field. lra.
Qed.

(** The rotation used by the reference decomposition diagonalises the
    matrix. *)
Lemma svd_sym_trig (A : mat2) :
  symmetric A ->
  let a := m00 A in
  let b := m01 A in
  let c := m11 A in
  let m := (a + c) / 2 in
  let d := (a - c) / 2 in
  let r := sqrt (d * d + b * b) in
  let co := if Req_dec_T r 0 then 1 else sqrt ((1 + d / r) / 2) in
  let si := if Req_dec_T r 0 then 0 else Rsgn b * sqrt ((1 - d / r) / 2) in
  0 <= r /\
  co * co + si * si = 1 /\
  (m + r) * (co * co) + (m - r) * (si * si) = a /\
  2 * r * (co * si) = b /\
  (m + r) * (si * si) + (m - r) * (co * co) = c.
Proof.
  intros Hsym a b c m d r co si.
  assert (Hr0 : 0 <= r) by apply sqrt_pos.
  assert (Hq : 0 <= d * d + b * b) by nra.
  assert (Hrr : r * r = d * d + b * b) by (apply sqrt_sqrt; assumption).
  split; [assumption|].
  unfold co, si. destruct (Req_dec_T r 0) as [E | E].
  - rewrite E in *. assert (d = 0) by nra. assert (b = 0) by nra.
    unfold m, d in *. repeat split; lra.
  - assert (Hr : 0 < r) by lra.
    destruct (half_angle d b r Hr Hrr) as (H1 & H2 & H3).
    rewrite H1, H2, H3. unfold m, d in *.
    repeat split; field; lra.
Qed.

(** A rotation whose rows carry signs is orthogonal, in either row
    order. *)
Lemma orthogonal_signed (co si e1 e2 : R) :
  co * co + si * si = 1 -> e1 * e1 = 1 -> e2 * e2 = 1 ->
  orthogonal (Mat2 (e1 * co) (e1 * si) (e2 * - si) (e2 * co)) /\
  orthogonal (Mat2 (e2 * - si) (e2 * co) (e1 * co) (e1 * si)).
Proof.
  intros H H1 H2.
  assert (Q : forall x y, x * x = 1 -> y * y = 1 ->
     x * x * (co * co) + y * y * (si * si) = 1 /\
     x * x * (si * si) + y * y * (co * co) = 1 /\
     (x * x - y * y) * (co * si) = 0).
  { intros x y -> ->. repeat split; lra. }
  destruct (Q e1 e2 H1 H2) as (Q1 & Q2 & Q3).
  destruct (Q e1 e1 H1 H1) as (Q4 & Q5 & _).
  destruct (Q e2 e2 H2 H2) as (Q6 & Q7 & _).
  repeat split; apply mat2_eq; simpl; lra.
Qed.

Lemma svd_sym_correct (A : mat2) : symmetric A -> is_svd A (svd_sym A).
Proof.
  intros Hsym.
  pose proof (svd_sym_trig A Hsym) as T. cbv zeta in T.
  unfold svd_sym.
  set (a := m00 A) in *. set (b := m01 A) in *. set (c := m11 A) in *.
  set (m := (a + c) / 2) in *. set (d := (a - c) / 2) in *.
  set (r := sqrt (d * d + b * b)) in *.
  set (co := if Req_dec_T r 0 then 1 else sqrt ((1 + d / r) / 2)) in *.
  set (si := if Req_dec_T r 0 then 0 else Rsgn b * sqrt ((1 - d / r) / 2)) in *.
  destruct T as (Hr & Hu & Ha & Hb & Hc).
  set (l1 := m + r) in *. set (l2 := m - r) in *.
  pose proof (Rsgn_sq l1) as G1. pose proof (Rsgn_sq l2) as G2.
  pose proof (Rabs_Rsgn l1) as P1. pose proof (Rabs_Rsgn l2) as P2.
  assert (Hc10 : m10 A = b) by (symmetry; exact Hsym).
  destruct (Rlt_dec m 0) as [Hm | Hm]; unfold is_svd.
  - split; [|split; [|split]].
    + split; apply mat2_eq; simpl; nra.
    + apply (orthogonal_signed co si (Rsgn l1) (Rsgn l2)); assumption.
    + split; [apply Rabs_pos|].
      unfold l1, l2. rewrite (Rabs_left (m - r)) by lra.
      apply Rabs_le. lra.
    + apply mat2_eq; simpl; fold a b c; try rewrite Hc10.
      * transitivity ((Rabs l2 * Rsgn l2) * (si * si) + (Rabs l1 * Rsgn l1) * (co * co)); [|ring].
        rewrite P1, P2. lra.
      * transitivity ((Rabs l1 * Rsgn l1 - Rabs l2 * Rsgn l2) * (co * si)); [|ring].
        rewrite P1, P2. unfold l1, l2. lra.
      * transitivity ((Rabs l1 * Rsgn l1 - Rabs l2 * Rsgn l2) * (co * si)); [|ring].
        rewrite P1, P2. unfold l1, l2. lra.
      * transitivity ((Rabs l2 * Rsgn l2) * (co * co) + (Rabs l1 * Rsgn l1) * (si * si)); [|ring].
        rewrite P1, P2. lra.
  - split; [|split; [|split]].
    + split; apply mat2_eq; simpl; nra.
    + apply (orthogonal_signed co si (Rsgn l1) (Rsgn l2)); assumption.
    + split; [apply Rabs_pos|].
      unfold l1, l2. rewrite (Rabs_pos_eq (m + r)) by lra.
      apply Rabs_le. lra.
    + apply mat2_eq; simpl; fold a b c; try rewrite Hc10.
      * transitivity ((Rabs l1 * Rsgn l1) * (co * co) + (Rabs l2 * Rsgn l2) * (si * si)); [|ring].
        rewrite P1, P2. lra.
      * transitivity ((Rabs l1 * Rsgn l1 - Rabs l2 * Rsgn l2) * (co * si)); [|ring].
        rewrite P1, P2. unfold l1, l2. lra.
      * transitivity ((Rabs l1 * Rsgn l1 - Rabs l2 * Rsgn l2) * (co * si)); [|ring].
        rewrite P1, P2. unfold l1, l2. lra.
      * transitivity ((Rabs l1 * Rsgn l1) * (si * si) + (Rabs l2 * Rsgn l2) * (co * co)); [|ring].
        rewrite P1, P2. lra.
Qed.

Lemma svd_ref_ok (A : mat2) : symmetric A -> svd_ok svd_ref A.
Proof.
  intros H. exists (svd_sym A). split; [reflexivity | apply svd_sym_correct; assumption].
Qed.

(** ** Positive semi-definite matrices *)

Lemma psd_entries (A : mat2) :
  psd A -> 0 <= m00 A /\ 0 <= m11 A /\ 0 <= det A.
Proof.
  intros [Hsym H]. unfold symmetric in Hsym.
  pose proof (H 1 0) as H10. pose proof (H 0 1) as H01.
  unfold quad, det in *. destruct A as [a b c d]; simpl in *. subst c.
  assert (Ha : 0 <= a) by lra. assert (Hd : 0 <= d) by lra.
  repeat split; try assumption.
  destruct (Req_dec_T a 0) as [E | E].
  - subst a. destruct (Req_dec_T b 0) as [Eb | Eb]; [subst b; lra|].
    pose proof (H (- (d + 1) / (2 * b)) 1) as K.
    replace (0 * (- (d + 1) / (2 * b)) * (- (d + 1) / (2 * b)) +
             (b + b) * (- (d + 1) / (2 * b)) * 1 + d * 1 * 1)
      with (-1) in K by (field; assumption).
    lra.
  - pose proof (H (- b) a). nra.
Qed.

(** A positive semi-definite matrix is determined by its square. *)
Lemma psd_sqrt_unique (P A : mat2) :
  symmetric P -> 0 <= m00 P -> 0 <= m11 P -> 0 <= det P ->
  symmetric A -> 0 <= m00 A -> 0 <= m11 A -> 0 <= det A ->
  mmul P P = mmul A A -> P = A.
Proof.
  intros SP Hp Hr Hdp SA Ha Hc Hda E.
  pose proof (f_equal det E) as D. rewrite !det_mmul in D.
  revert SP Hp Hr Hdp SA Ha Hc Hda E D.
  unfold symmetric, det.
  destruct P as [p q q' r], A as [a b b' c]; simpl.
  intros -> Hp Hr Hdp -> Ha Hc Hda E D.
  injection E as E1 E2 E3 E4.
  assert (Hdet : p * r - q' * q' = a * c - b' * b') by nra.
  assert (Htr : p + r = a + c).
  { assert ((p + r) * (p + r) = (a + c) * (a + c)) by nra. nra. }
  destruct (Req_dec_T (a + c) 0) as [Z | NZ].
  - assert (a = 0) by lra. assert (c = 0) by lra.
    assert (p = 0) by lra. assert (r = 0) by lra. subst.
    assert (q' = 0) by nra. assert (b' = 0) by nra. subst. reflexivity.
  - assert (Ep : (a + c) * p = (a + c) * a) by nra.
    assert (Eq : (a + c) * q' = (a + c) * b') by nra.
    assert (Er : (a + c) * r = (a + c) * c) by nra.
    apply Rmult_eq_reg_l in Ep, Eq, Er; try assumption. subst. reflexivity.
Qed.

(** For a positive semi-definite matrix the left factor of a singular
    value decomposition diagonalises it. *)
Lemma svd_psd_diagonalises (A : mat2) U s1 s2 Vh :
  psd A -> is_svd A (U, (s1, s2), Vh) ->
  mmul U (mmul (diag2 s1 s2) (mT U)) = A.
Proof.
  intros HA H.
  pose proof (svd_gram _ _ _ _ _ H) as G.
  destruct (psd_entries A HA) as (Ha & Hc & Hd).
  destruct HA as [Hsym _].
  rewrite (symmetric_mT A Hsym) in G.
  destruct H as (HU & _ & Hs & _).
  pose proof (orthogonal_det_sq U HU) as HdU.
  destruct HU as [HU1 HU2].
  set (P := mmul U (mmul (diag2 s1 s2) (mT U))).
  apply psd_sqrt_unique; try assumption.
  - unfold symmetric, P; simpl; ring.
  - unfold P; simpl. nra.
  - unfold P; simpl. nra.
  - unfold P. rewrite !det_mmul, det_mT.
    replace (det (diag2 s1 s2)) with (s1 * s2) by (unfold det; simpl; ring).
    transitivity ((det U * det U) * (s1 * s2)); [|apply Req_le; ring].
    rewrite HdU. nra.
  - rewrite G. unfold P.
    set (S := diag2 s1 s2).
    rewrite <- (mmul_assoc U (mmul S (mT U))).
    rewrite <- (mmul_assoc S (mT U)).
    rewrite (mmul_assoc (mT U) U), HU1, mmul_I2_l.
    rewrite (mmul_assoc S S).
    f_equal. f_equal. apply mat2_eq; simpl; ring.
Qed.

(** ** What [cov_to_ellipse] returns *)

Lemma fsqrt_nonneg (s : R) : 0 <= s -> fsqrt (Fin s) = Fin (sqrt s).
Proof.
  intros H. simpl. destruct (Rsign_cases s) as [[_ ->] | [[Hn _] | [_ ->]]];
    try reflexivity. lra.
Qed.

Lemma cov_to_ellipse_value svd cov pos U s1 s2 Vh :
  svd cov = Returns (U, (s1, s2), Vh) -> 0 <= s2 <= s1 ->
  cov_to_ellipse svd cov pos =
  Returns (mkEllipse pos (Fin (2 * sqrt s1)) (Fin (2 * sqrt s2))
             (degrees (arctan2 (m10 U) (m00 U)))).
Proof.
  intros E Hs. unfold cov_to_ellipse. rewrite E. cbn [bind fst snd].
  rewrite !fsqrt_nonneg by lra. reflexivity.
Qed.

Lemma conjugate_diag (U : mat2) (s1 s2 : R) :
  mmul U (mmul (diag2 s1 s2) (mT U)) =
  Mat2 (s1 * (m00 U * m00 U) + s2 * (m01 U * m01 U))
       (s1 * (m00 U * m10 U) + s2 * (m01 U * m11 U))
       (s1 * (m00 U * m10 U) + s2 * (m01 U * m11 U))
       (s1 * (m10 U * m10 U) + s2 * (m11 U * m11 U)).
Proof. apply mat2_eq; simpl; ring. Qed.

(** The rotation by the angle of the first column of an orthogonal matrix
    conjugates a diagonal matrix as the matrix itself does. *)
Lemma rotation_of_column (U : mat2) (s1 s2 : R) :
  orthogonal U ->
  let Q := rotation (arctan2 (m10 U) (m00 U)) in
  mmul Q (mmul (diag2 s1 s2) (mT Q)) = mmul U (mmul (diag2 s1 s2) (mT U)).
Proof.
  intros HU Q.
  destruct (orthogonal_entries U HU) as (C1 & C2 & C3 & R1 & R2 & R3).
  destruct (arctan2_unit (m00 U) (m10 U) C1) as [Hc Hs].
  unfold Q, rotation. rewrite Hc, Hs, !conjugate_diag.
  destruct U as [a b c d]; simpl in *.
  assert (E1 : b * b = c * c) by lra.
  assert (E2 : d * d = a * a) by lra.
  assert (E3 : b * d = - (a * c)) by lra.
  rewrite E1, E2, E3.
  apply mat2_eq; simpl; ring.
Qed.

Lemma symmetric_eigenvalues (A : mat2) :
  symmetric A -> exists l1 l2, eigenvalues A l1 l2 /\ Rabs l2 <= Rabs l1.
Proof.
  intros Hsym. unfold symmetric in Hsym.
  set (m := (m00 A + m11 A) / 2). set (d := (m00 A - m11 A) / 2).
  set (r := sqrt (d * d + m01 A * m01 A)).
  assert (Hq : 0 <= d * d + m01 A * m01 A) by nra.
  assert (Hr : 0 <= r) by apply sqrt_pos.
  assert (Hrr : r * r = d * d + m01 A * m01 A) by (apply sqrt_sqrt; assumption).
  assert (E : forall x y, x + y = 2 * m -> x * y = m * m - r * r -> eigenvalues A x y).
  { intros x y H1 H2. unfold eigenvalues, trace, det. rewrite <- Hsym.
    unfold m, d in *. split; nra. }
  destruct (Rlt_dec m 0).
  - exists (m - r), (m + r). split; [apply E; ring|].
    rewrite (Rabs_left (m - r)) by lra. apply Rabs_le. lra.
  - exists (m + r), (m - r). split; [apply E; ring|].
    rewrite (Rabs_pos_eq (m + r)) by lra. apply Rabs_le. lra.
Qed.

Lemma eigenvalues_root (A : mat2) l1 l2 l :
  eigenvalues A l1 l2 -> eigenvalue A l -> l = l1 \/ l = l2.
Proof.
  unfold eigenvalues, eigenvalue. intros [H1 H2] H.
  rewrite <- H1, <- H2 in H.
  assert (E : (l - l1) * (l - l2) = 0) by lra.
  apply Rmult_integral in E. destruct E; [left | right]; lra.
Qed.

(** ** Claims about [cov_to_ellipse] *)

Section CovToEllipse.

Variable svd : mat2 -> outcome svd_triple.

(** The outcome for a symmetric matrix, in terms of its eigenvalues. *)
Lemma cov_to_ellipse_symmetric (cov : mat2) (pos : R * R) (l1 l2 : R) :
  symmetric cov -> svd_ok svd cov ->
  eigenvalues cov l1 l2 -> Rabs l2 <= Rabs l1 ->
  exists ang,
    cov_to_ellipse svd cov pos =
    Returns (mkEllipse pos (Fin (2 * sqrt (Rabs l1))) (Fin (2 * sqrt (Rabs l2))) ang).
Proof.
  intros Hsym [[[U [s1 s2]] Vh] [E H]] He Hord.
  destruct (svd_sym_values cov U s1 s2 Vh l1 l2 Hsym He Hord H) as [-> ->].
  eexists. apply cov_to_ellipse_value with (Vh := Vh); [exact E|].
  split; [apply Rabs_pos | assumption].
Qed.

End CovToEllipse.

(** C10: on every symmetric matrix, indefinite ones included, the function
    returns: the singular values are non-negative and sorted, so both square
    roots are finite, width >= height >= 0, and the two axes are twice the
    square roots of the magnitudes of the eigenvalues. *)
Theorem cov_to_ellipse_total (cov : mat2) (pos : R * R) :
  symmetric cov ->
  svd_ok svd_ref cov /\
  forall svd, svd_ok svd cov ->
    exists w h ang l1 l2,
      cov_to_ellipse svd cov pos = Returns (mkEllipse pos (Fin w) (Fin h) ang) /\
      0 <= h <= w /\
      eigenvalues cov l1 l2 /\
      w = 2 * sqrt (Rabs l1) /\ h = 2 * sqrt (Rabs l2).
Proof.
  intros Hsym. split; [apply svd_ref_ok; assumption|].
  intros svd Hok.
  destruct (symmetric_eigenvalues cov Hsym) as (l1 & l2 & He & Hord).
  destruct (cov_to_ellipse_symmetric svd cov pos l1 l2 Hsym Hok He Hord) as [ang E].
  exists (2 * sqrt (Rabs l1)), (2 * sqrt (Rabs l2)), ang, l1, l2.
  pose proof (sqrt_pos (Rabs l2)) as P.
  pose proof (sqrt_le_1_alt _ _ Hord) as Q.
  split; [exact E|]. split; [lra|]. split; [exact He|]. split; reflexivity.
Qed.

Lemma cov_to_ellipse_total_witness :
  let cov := Mat2 1 2 2 1 in
  svd_ok svd_ref cov /\
  forall svd, svd_ok svd cov ->
    exists w h ang l1 l2,
      cov_to_ellipse svd cov (0, 0) = Returns (mkEllipse (0, 0) (Fin w) (Fin h) ang) /\
      0 <= h <= w /\
      eigenvalues cov l1 l2 /\
      w = 2 * sqrt (Rabs l1) /\ h = 2 * sqrt (Rabs l2).
Proof.
  apply (cov_to_ellipse_total (Mat2 1 2 2 1) (0, 0)). reflexivity.
Defined.

(** C1, as the code has it: a symmetric matrix with a negative eigenvalue
    [l] raises nothing; an ellipse is returned, and one of its axes is
    twice the square root of the magnitude [- l]. *)
Theorem cov_to_ellipse_negative_eigenvalue
    (svd : mat2 -> outcome svd_triple) (cov : mat2) (pos : R * R) (l : R) :
  symmetric cov -> eigenvalue cov l -> l < 0 -> svd_ok svd cov ->
  exists e,
    cov_to_ellipse svd cov pos = Returns e /\
    ~ raises (cov_to_ellipse svd cov pos) /\
    (width e = Fin (2 * sqrt (- l)) \/ height e = Fin (2 * sqrt (- l))).
Proof.
  intros Hsym Hl Hneg Hok.
  destruct (symmetric_eigenvalues cov Hsym) as (l1 & l2 & He & Hord).
  destruct (cov_to_ellipse_symmetric svd cov pos l1 l2 Hsym Hok He Hord) as [ang E].
  eexists. split; [exact E|]. split; [rewrite E; simpl; tauto|].
  simpl. rewrite <- (Rabs_left l) by assumption.
  destruct (eigenvalues_root cov l1 l2 l He Hl) as [-> | ->]; [left | right]; reflexivity.
Qed.

(** *** The indefinite matrix [[1, 2], [2, 1]] *)

Lemma Rsgn_pos (x : R) : 0 <= x -> Rsgn x = 1.
Proof. intros H. unfold Rsgn. destruct (Rlt_dec x 0); [lra | reflexivity]. Qed.

Lemma Rsgn_neg (x : R) : x < 0 -> Rsgn x = -1.
Proof. intros H. unfold Rsgn. destruct (Rlt_dec x 0); [reflexivity | lra]. Qed.

Lemma svd_sym_indefinite :
  svd_sym (Mat2 1 2 2 1) =
  (Mat2 (sqrt (1 / 2)) (- sqrt (1 / 2)) (sqrt (1 / 2)) (sqrt (1 / 2)),
   (3, 1),
   Mat2 (sqrt (1 / 2)) (sqrt (1 / 2)) (sqrt (1 / 2)) (- sqrt (1 / 2))).
Proof.
  assert (Hr : sqrt ((1 - 1) / 2 * ((1 - 1) / 2) + 2 * 2) = 2).
  { replace ((1 - 1) / 2 * ((1 - 1) / 2) + 2 * 2) with (2 * 2) by field.
    apply sqrt_square. lra. }
  cbv [svd_sym m00 m01 m11]. rewrite Hr.
  destruct (Req_dec_T 2 0) as [E | _]; [lra|].
  destruct (Rlt_dec ((1 + 1) / 2) 0) as [E | _]; [lra|].
  replace ((1 + (1 - 1) / 2 / 2) / 2) with (1 / 2) by field.
  replace ((1 - (1 - 1) / 2 / 2) / 2) with (1 / 2) by field.
  replace ((1 + 1) / 2 + 2) with 3 by field.
  replace ((1 + 1) / 2 - 2) with (-1) by field.
  rewrite (Rsgn_pos 2), (Rsgn_pos 3), (Rsgn_neg (-1)) by lra.
  rewrite (Rabs_pos_eq 3), (Rabs_left (-1)) by lra.
  f_equal; [f_equal|].
  - f_equal; ring.
  - f_equal; ring.
  - f_equal; ring.
Qed.

Lemma arctan2_diagonal (x : R) : 0 < x -> arctan2 x x = PI / 4.
Proof.
  intros H. unfold arctan2. rewrite Rsign_pos by assumption.
  replace (x / x) with 1 by (field; lra). apply atan_1.
Qed.

(** C1, counterexample: the matrix [[1, 2], [2, 1]] is symmetric with the
    negative eigenvalue -1, the decomposition meets its contract, and the
    call returns the ellipse of width [2 sqrt 3], height 2 and angle 45
    degrees: nothing is raised. *)
Lemma cov_to_ellipse_indefinite_returns :
  symmetric (Mat2 1 2 2 1) /\
  eigenvalue (Mat2 1 2 2 1) (-1) /\
  svd_ok svd_ref (Mat2 1 2 2 1) /\
  cov_to_ellipse svd_ref (Mat2 1 2 2 1) (0, 0) =
    Returns (mkEllipse (0, 0) (Fin (2 * sqrt 3)) (Fin 2) 45) /\
  ~ raises (cov_to_ellipse svd_ref (Mat2 1 2 2 1) (0, 0)).
Proof.
  assert (S : symmetric (Mat2 1 2 2 1)) by reflexivity.
  assert (V : cov_to_ellipse svd_ref (Mat2 1 2 2 1) (0, 0) =
              Returns (mkEllipse (0, 0) (Fin (2 * sqrt 3)) (Fin 2) 45)).
  { rewrite (cov_to_ellipse_value svd_ref _ _ _ 3 1 _
               (f_equal Returns svd_sym_indefinite)) by lra.
    cbn [m10 m00]. rewrite arctan2_diagonal.
    - rewrite sqrt_1. do 2 f_equal.
      + f_equal. ring.
      + unfold degrees. field. apply PI_neq0.
    - apply sqrt_lt_R0. lra. }
  split; [exact S|]. split; [unfold eigenvalue, trace, det; simpl; ring|].
  split; [apply svd_ref_ok; exact S|]. split; [exact V|].
  rewrite V. simpl. tauto.
Qed.

Lemma cov_to_ellipse_negative_eigenvalue_witness :
  exists e,
    cov_to_ellipse svd_ref (Mat2 1 2 2 1) (0, 0) = Returns e /\
    ~ raises (cov_to_ellipse svd_ref (Mat2 1 2 2 1) (0, 0)) /\
    (width e = Fin (2 * sqrt (- -1)) \/ height e = Fin (2 * sqrt (- -1))).
Proof.
  apply (cov_to_ellipse_negative_eigenvalue svd_ref (Mat2 1 2 2 1) (0, 0) (-1)).
  - reflexivity.
  - unfold eigenvalue, trace, det; simpl; ring.
  - lra.
  - apply svd_ref_ok. reflexivity.
Defined.

(** C3: for a positive semi-definite covariance matrix the ellipse has
    width >= height >= 0, and rotating the diagonal matrix of the squared
    half axes by the returned angle gives the covariance matrix back
    (exactly, in idealised arithmetic). *)
Theorem cov_to_ellipse_round_trip
    (svd : mat2 -> outcome svd_triple) (cov : mat2) (pos : R * R) :
  psd cov -> svd_ok svd cov ->
  exists w h ang,
    cov_to_ellipse svd cov pos = Returns (mkEllipse pos (Fin w) (Fin h) ang) /\
    0 <= h <= w /\
    ellipse_cov w h ang = cov.
Proof.
  intros Hpsd [[[U [s1 s2]] Vh] [E H]].
  pose proof H as (HU & _ & Hs & _).
  exists (2 * sqrt s1), (2 * sqrt s2), (degrees (arctan2 (m10 U) (m00 U))).
  split; [apply cov_to_ellipse_value with (Vh := Vh); assumption|].
  split.
  - pose proof (sqrt_pos s2). pose proof (sqrt_le_1_alt s2 s1 (proj2 Hs)). lra.
  - unfold ellipse_cov. rewrite radians_degrees.
    replace (2 * sqrt s1 / 2 * (2 * sqrt s1 / 2)) with (sqrt s1 * sqrt s1) by field.
    replace (2 * sqrt s2 / 2 * (2 * sqrt s2 / 2)) with (sqrt s2 * sqrt s2) by field.
    rewrite !sqrt_sqrt by lra.
    rewrite (rotation_of_column U s1 s2 HU).
    apply (svd_psd_diagonalises cov U s1 s2 Vh Hpsd H).
Qed.

(** The matrix [plot_ellipse] builds from a row of the table is positive
    semi-definite when the correlation coefficient lies in [-1, 1]. *)
Lemma row_cov_psd (w : row) : -1 <= pxy w <= 1 -> psd (row_cov w).
Proof.
  intros Hp. split; [reflexivity|]. intros x y.
  unfold quad, row_cov. cbn [m00 m01 m10 m11].
  set (u := sx w * x + pxy w * sy w * y).
  assert (E : sx w * sx w * x * x +
              (pxy w * sx w * sy w + pxy w * sx w * sy w) * x * y +
              sy w * sy w * y * y =
              u * u + (1 - pxy w * pxy w) * ((sy w * y) * (sy w * y)))
    by (unfold u; ring).
  rewrite E.
  pose proof (Rle_0_sqr u) as H1. pose proof (Rle_0_sqr (sy w * y)) as H2.
  unfold Rsqr in *. assert (0 <= 1 - pxy w * pxy w) by nra.
  apply Rplus_le_le_0_compat; [assumption | apply Rmult_le_pos; assumption].
Qed.

Lemma cov_to_ellipse_round_trip_witness :
  exists w h ang,
    cov_to_ellipse svd_ref (row_cov (mkRow 5 7 2 1 (1 / 2))) (5, 7) =
      Returns (mkEllipse (5, 7) (Fin w) (Fin h) ang) /\
    0 <= h <= w /\
    ellipse_cov w h ang = row_cov (mkRow 5 7 2 1 (1 / 2)).
Proof.
  apply (cov_to_ellipse_round_trip svd_ref (row_cov (mkRow 5 7 2 1 (1 / 2))) (5, 7)).
  - apply row_cov_psd. cbn [pxy]. lra.
  - apply svd_ref_ok. reflexivity.
Defined.

(** *** Diagonal matrices *)

(** Any decomposition of [diag(a, c)] with [a > c >= 0] has the singular
    values [(a, c)], and the first column of [U] is plus or minus the first
    unit vector. *)
Lemma svd_diag_column (a c : R) U s1 s2 Vh :
  0 <= c < a -> is_svd (diag2 a c) (U, (s1, s2), Vh) ->
  s1 = a /\ s2 = c /\ m10 U = 0 /\ (m00 U = 1 \/ m00 U = -1).
Proof.
  intros Hac H.
  assert (He : eigenvalues (diag2 a c) a c).
  { unfold eigenvalues, trace, det; simpl. split; ring. }
  assert (Hord : Rabs c <= Rabs a) by (rewrite !Rabs_pos_eq by lra; lra).
  assert (Hsym : symmetric (diag2 a c)) by reflexivity.
  destruct (svd_sym_values _ U s1 s2 Vh a c Hsym He Hord H) as [E1 E2].
  rewrite Rabs_pos_eq in E1, E2 by lra. subst s1 s2.
  pose proof (svd_gram _ _ _ _ _ H) as G.
  rewrite conjugate_diag in G.
  destruct H as (HU & _).
  destruct (orthogonal_entries U HU) as (C1 & C2 & C3 & R1 & R2 & R3).
  apply (f_equal m00) in G. simpl in G.
  assert (Z : (a * a - c * c) * (m01 U * m01 U) = 0) by nra.
  apply Rmult_integral in Z. destruct Z as [Z | Z]; [nra|].
  assert (Hsq : m00 U * m00 U = 1) by lra.
  assert (H10 : m10 U * m10 U = 0) by lra.
  repeat split; try reflexivity.
  - nra.
  - assert (F : (m00 U - 1) * (m00 U + 1) = 0) by lra.
    apply Rmult_integral in F. destruct F; [left | right]; lra.
Qed.

Lemma svd_sym_diag (a c : R) :
  0 <= c < a ->
  exists U Vh, svd_sym (diag2 a c) = (U, (a, c), Vh) /\ m00 U = 1 /\ m10 U = 0.
Proof.
  intros Hac.
  assert (Hr : sqrt ((a - c) / 2 * ((a - c) / 2) + 0 * 0) = (a - c) / 2).
  { rewrite Rmult_0_r, Rplus_0_r. apply sqrt_square. lra. }
  cbv [svd_sym diag2 m00 m01 m11]. rewrite Hr.
  destruct (Req_dec_T ((a - c) / 2) 0) as [E | _]; [lra|].
  destruct (Rlt_dec ((a + c) / 2) 0) as [E | _]; [lra|].
  replace ((1 + (a - c) / 2 / ((a - c) / 2)) / 2) with 1 by (field; lra).
  replace ((1 - (a - c) / 2 / ((a - c) / 2)) / 2) with 0 by (field; lra).
  replace ((a + c) / 2 + (a - c) / 2) with a by field.
  replace ((a + c) / 2 - (a - c) / 2) with c by field.
  rewrite sqrt_1, sqrt_0, Rmult_0_r, !Rabs_pos_eq by lra.
  do 2 eexists. split; [reflexivity|]. split; reflexivity.
Qed.

(** C6: for [diag(sx^2, sy^2)] with [sx > sy >= 0] the ellipse has width
    [2 sx], height [2 sy] and an angle that is 0 modulo 180 degrees; so has
    the ellipse of [[4, 0], [0, 1]] at (2, 3), with width 4 and height 2.
    The reference decomposition gives the angle 0 itself. *)
Theorem cov_to_ellipse_diagonal
    (svd : mat2 -> outcome svd_triple) (sx sy : R) (pos : R * R) :
  0 <= sy < sx -> svd_ok svd (diag2 (sx * sx) (sy * sy)) ->
  (exists ang,
     cov_to_ellipse svd (diag2 (sx * sx) (sy * sy)) pos =
       Returns (mkEllipse pos (Fin (2 * sx)) (Fin (2 * sy)) ang) /\
     (ang = 0 \/ ang = 180)) /\
  (sx = 2 -> sy = 1 ->
   exists ang,
     cov_to_ellipse svd (Mat2 4 0 0 1) (2, 3) =
       Returns (mkEllipse (2, 3) (Fin 4) (Fin 2) ang) /\
     (ang = 0 \/ ang = 180)) /\
  cov_to_ellipse svd_ref (diag2 (sx * sx) (sy * sy)) pos =
    Returns (mkEllipse pos (Fin (2 * sx)) (Fin (2 * sy)) 0) /\
  cov_to_ellipse svd_ref (Mat2 4 0 0 1) (2, 3) =
    Returns (mkEllipse (2, 3) (Fin 4) (Fin 2) 0).
Proof.
  intros Hs Hok.
  assert (G : forall sv a c p, 0 <= c < a -> svd_ok sv (diag2 a c) ->
            exists ang,
              cov_to_ellipse sv (diag2 a c) p =
                Returns (mkEllipse p (Fin (2 * sqrt a)) (Fin (2 * sqrt c)) ang) /\
              (ang = 0 \/ ang = 180)).
  { intros sv a c p Hac [[[U [s1 s2]] Vh] [E H]].
    destruct (svd_diag_column _ _ U s1 s2 Vh Hac H) as (-> & -> & U10 & U00).
    eexists. split.
    - apply (cov_to_ellipse_value sv _ p U _ _ Vh E). lra.
    - rewrite U10. destruct U00 as [-> | ->].
      + left. rewrite arctan2_0_1. apply degrees_0.
      + right. rewrite arctan2_0_m1. apply degrees_PI. }
  assert (V : forall a c p, 0 <= c < a ->
            cov_to_ellipse svd_ref (diag2 a c) p =
            Returns (mkEllipse p (Fin (2 * sqrt a)) (Fin (2 * sqrt c)) 0)).
  { intros a c p Hac. destruct (svd_sym_diag a c Hac) as (U' & Vh' & E' & F0 & F1).
    rewrite (cov_to_ellipse_value svd_ref _ p U' a c Vh' (f_equal Returns E')) by lra.
    rewrite F0, F1, arctan2_0_1, degrees_0. reflexivity. }
  assert (Hsq : 0 <= sy * sy < sx * sx) by nra.
  assert (R4 : sqrt 4 = 2).
  { replace 4 with (2 * 2) by ring. apply sqrt_square. lra. }
  assert (W : forall ang, mkEllipse (2, 3) (Fin (2 * sqrt 4)) (Fin (2 * sqrt 1)) ang =
                          mkEllipse (2, 3) (Fin 4) (Fin 2) ang).
  { intros ang. rewrite R4, sqrt_1. do 2 f_equal; f_equal; ring. }
  split; [|split; [|split]].
  - destruct (G svd _ _ pos Hsq Hok) as (ang & E & A).
    exists ang. split; [|exact A].
    rewrite E, !sqrt_square by lra. reflexivity.
  - intros -> ->.
    assert (D : diag2 (2 * 2) (1 * 1) = Mat2 4 0 0 1) by (unfold diag2; f_equal; ring).
    rewrite D in Hok. change (Mat2 4 0 0 1) with (diag2 4 1) in *.
    destruct (G svd 4 1 (2, 3) ltac:(lra) Hok) as (ang & E & A).
    exists ang. split; [|exact A]. rewrite E, W. reflexivity.
  - rewrite V by assumption. rewrite !sqrt_square by lra. reflexivity.
  - change (Mat2 4 0 0 1) with (diag2 4 1). rewrite V by lra. rewrite W. reflexivity.
Qed.

Lemma cov_to_ellipse_diagonal_witness :
  (exists ang,
     cov_to_ellipse svd_ref (diag2 (2 * 2) (1 * 1)) (2, 3) =
       Returns (mkEllipse (2, 3) (Fin (2 * 2)) (Fin (2 * 1)) ang) /\
     (ang = 0 \/ ang = 180)) /\
  (2 = 2 -> 1 = 1 ->
   exists ang,
     cov_to_ellipse svd_ref (Mat2 4 0 0 1) (2, 3) =
       Returns (mkEllipse (2, 3) (Fin 4) (Fin 2) ang) /\
     (ang = 0 \/ ang = 180)) /\
  cov_to_ellipse svd_ref (diag2 (2 * 2) (1 * 1)) (2, 3) =
    Returns (mkEllipse (2, 3) (Fin (2 * 2)) (Fin (2 * 1)) 0) /\
  cov_to_ellipse svd_ref (Mat2 4 0 0 1) (2, 3) =
    Returns (mkEllipse (2, 3) (Fin 4) (Fin 2) 0).
Proof.
  apply (cov_to_ellipse_diagonal svd_ref 2 1 (2, 3)).
  - lra.
  - apply svd_ref_ok. reflexivity.
Defined.

(** ** The per-pixel map of [logScaleImage] *)
















(** With coinciding limits every pixel, finite or not, becomes NaN. *)
Lemma rescale_degenerate (c : R) (v : fval) :
  (exists t, rescale c c v = Fin t) \/ rescale c c v = NaN.
Proof.
  unfold rescale. cbn [fsub]. replace (c - c) with 0 by ring.
  destruct v; cbn [fsub fdiv]; rewrite ?Rsign_zero.
  - destruct (Rsign (r - c)); cbn; eauto.
  - cbn; eauto.
  - cbn; eauto.
  - cbn; eauto.
Qed.

Lemma log_stretch_zero (z t : R) :
  z = 0 -> log_stretch (mkLogStretch (Fin z)) (Fin t) = NaN.
Proof.
  intros ->. unfold log_stretch. cbn [stretch_a fmul fadd flog].
  rewrite Rmult_0_l, !Rplus_0_r, (Rsign_pos 1) by lra.
  cbn [fdiv]. rewrite ln_1, Rsign_zero. reflexivity.
Qed.

Lemma log_stretch_of_nan (scale : LogStretch) :
  log_stretch scale NaN = NaN.
Proof. unfold log_stretch. destruct (stretch_a scale); reflexivity. Qed.

Lemma pixel_map_degenerate (c : R) (v : fval) : pixel_map c c v = NaN.
Proof.
  unfold pixel_map.
  destruct (Rsign_cases c) as [[Hc Sc] | [[Hc Sc] | [Hc Sc]]].
  3:{ cbn [fdiv]. rewrite Sc. reflexivity. }
  all: cbn [fdiv fsub]; rewrite Sc; cbn [fsub];
    destruct (rescale_degenerate c v) as [[t ->] | ->];
    [ apply log_stretch_zero; field; lra | apply log_stretch_of_nan ].
Qed.
(** ** What [logScaleImage] returns *)


(** With the lower limit 0 the coefficient is infinite or NaN, and passes
    the comparison. *)
Lemma coefficient_zero_vmin (vmax : R) :
  0 <= vmax ->
  nonpositive (fsub (fdiv (Fin vmax) (Fin 0)) (Fin 1)) = false.
Proof.
  intros H. cbn [fdiv]. rewrite Rsign_zero.
  destruct (Rsign_cases vmax) as [[P ->] | [[N ->] | [Z ->]]]; [reflexivity | lra | reflexivity].
Qed.

(** Limits in order that are neither positive and distinct nor start at
    0 give a coefficient that is not positive. *)
Lemma coefficient_rejected (vmin vmax : R) :
  vmin <= vmax -> vmin < 0 \/ (0 < vmin /\ vmin = vmax) ->
  nonpositive (fsub (fdiv (Fin vmax) (Fin vmin)) (Fin 1)) = true.
Proof.
  intros Hle [N | [P E]].
  - cbn [fdiv]. rewrite (Rsign_neg _ N). cbn [fsub nonpositive].
    destruct (Rle_dec (vmax / vmin - 1) 0) as [H | H]; [reflexivity|].
    exfalso. apply H.
    assert (I : / vmin < 0) by (apply Rinv_lt_0_compat; assumption).
    assert (U : vmin * / vmin = 1) by (apply Rinv_r; lra).
    unfold Rdiv. nra.
  - subst vmax. cbn [fdiv]. rewrite (Rsign_pos _ P). cbn [fsub nonpositive].
    destruct (Rle_dec (vmin / vmin - 1) 0) as [H | H]; [reflexivity|].
    exfalso. apply H. unfold Rdiv. rewrite Rinv_r by lra. lra.
Qed.

Lemma logScaleImage_returns (h : store) (image : ref) (return_full : bool)
    (vmin vmax : R) :
  limits (h image) = Returns (vmin, vmax) ->
  nonpositive (fsub (fdiv (Fin vmax) (Fin vmin)) (Fin 1)) = false ->
  logScaleImage image return_full h =
  (Returns
     (if return_full
      then ScaledFull (amap (pixel_map vmin vmax) (h image)) vmin vmax
             (mkLogStretch (fsub (fdiv (Fin vmax) (Fin vmin)) (Fin 1)))
      else Scaled (amap (pixel_map vmin vmax) (h image))),
   h).
Proof.
  intros E A. unfold limits in E.
  unfold logScaleImage, get_limits, composite_call, LogStretch_init, mbind,
    load, lift, ret.
  rewrite E. cbv beta iota. rewrite A. cbv beta iota. rewrite E.
  destruct return_full; reflexivity.
Qed.

(** A coefficient that is not positive stops the call at the constructor
    of the stretch. *)
Lemma logScaleImage_rejects (h : store) (image : ref) (return_full : bool)
    (vmin vmax : R) :
  limits (h image) = Returns (vmin, vmax) ->
  nonpositive (fsub (fdiv (Fin vmax) (Fin vmin)) (Fin 1)) = true ->
  logScaleImage image return_full h = (Raises ValueError, h).
Proof.
  intros E A. unfold limits in E.
  unfold logScaleImage, get_limits, LogStretch_init, mbind, load, lift.
  rewrite E. cbv beta iota. rewrite A. reflexivity.
Qed.

Lemma logScaleImage_raises (h : store) (image : ref) (return_full : bool)
    (e : exn) :
  limits (h image) = Raises e ->
  logScaleImage image return_full h = (Raises e, h).
Proof.
  intros E. unfold limits in E.
  unfold logScaleImage, get_limits, mbind, load, lift.
  rewrite E. reflexivity.
Qed.

(** The store after [logScaleImage] is the store before. *)
Lemma logScaleImage_store (h : store) (image : ref) (return_full : bool) :
  snd (logScaleImage image return_full h) = h.
Proof.
  destruct (limits (h image)) as [[vmin vmax] | e] eqn:E.
  - destruct (nonpositive (fsub (fdiv (Fin vmax) (Fin vmin)) (Fin 1))) eqn:A.
    + rewrite (logScaleImage_rejects _ _ _ _ _ E A). reflexivity.
    + rewrite (logScaleImage_returns _ _ _ _ _ E A). reflexivity.
  - rewrite (logScaleImage_raises _ _ _ _ E). reflexivity.
Qed.

(** ** Entries of arrays *)


Lemma px_amap (f : fval -> fval) (a : ndarray) (i j : nat) :
  (i < nrows a)%nat -> (j < length (nth i (rows a) []))%nat ->
  px (amap f a) i j = f (px a i j).
Proof.
  unfold px, nrows, amap. cbn [rows]. intros Hi Hj.
  rewrite (nth_indep (map (map f) (rows a)) [] (map f [])) by (rewrite length_map; assumption).
  rewrite map_nth.
  rewrite (nth_indep (map f _) NaN (f NaN)) by (rewrite length_map; assumption).
  apply map_nth.
Qed.


Lemma shape_amap (f : fval -> fval) (a : ndarray) : shape (amap f a) = shape a.
Proof. unfold shape, nrows, amap. cbn [rows ncols]. rewrite length_map. reflexivity. Qed.

(** ** Sorting and percentiles *)

Lemma insert_length (x : R) (l : list R) : length (insert x l) = S (length l).
Proof.
  induction l as [|y t IH]; simpl; [reflexivity|].
  destruct (Rle_dec x y); simpl; [reflexivity | rewrite IH; reflexivity].
Qed.

Lemma np_sort_length (l : list R) : length (np_sort l) = length l.
Proof.
  induction l as [|x t IH]; simpl; [reflexivity|].
  rewrite insert_length, IH. reflexivity.
Qed.

Lemma insert_Forall (P : R -> Prop) (x : R) (l : list R) :
  P x -> Forall P l -> Forall P (insert x l).
Proof.
  intros Hx H. induction H as [|y t Hy Ht IH]; simpl.
  - constructor; [assumption | constructor].
  - destruct (Rle_dec x y); repeat constructor; assumption.
Qed.

Lemma insert_sorted (x : R) (l : list R) :
  StronglySorted Rle l -> StronglySorted Rle (insert x l).
Proof.
  induction 1 as [|y t Ht IH Hy]; simpl.
  - repeat constructor.
  - destruct (Rle_dec x y) as [Hxy | Hxy].
    + constructor; [constructor; assumption|].
      constructor; [assumption|].
      eapply Forall_impl; [|exact Hy]. intros z Hz. simpl in Hz. lra.
    + constructor; [assumption|].
      apply insert_Forall; [lra | assumption].
Qed.

Lemma np_sort_sorted (l : list R) : StronglySorted Rle (np_sort l).
Proof.
  induction l as [|x t IH]; simpl; [constructor | apply insert_sorted; assumption].
Qed.

Lemma sorted_nth (l : list R) (i j : nat) :
  StronglySorted Rle l -> (i <= j)%nat -> (j < length l)%nat ->
  nth i l 0 <= nth j l 0.
Proof.
  intros H. revert i j. induction H as [|y t Ht IH Hy]; intros i j Hij Hj.
  - simpl in Hj. lia.
  - destruct i as [|i], j as [|j]; simpl in *; try lia.
    + lra.
    + rewrite Forall_forall in Hy. apply Hy. apply nth_In. lia.
    + apply IH; lia.
Qed.

(** Linear interpolation between neighbours of a sorted list grows with
    the position. *)
Lemma lerp_mono (s : list R) (lo1 lo2 : nat) (t1 t2 : R) :
  StronglySorted Rle s ->
  0 <= t1 < 1 -> 0 <= t2 < 1 ->
  (lo1 < lo2)%nat \/ (lo1 = lo2 /\ t1 <= t2) ->
  (lo2 <= length s - 1)%nat -> (0 < length s)%nat ->
  nth lo1 s 0 + t1 * (nth (Nat.min (lo1 + 1) (length s - 1)) s 0 - nth lo1 s 0) <=
  nth lo2 s 0 + t2 * (nth (Nat.min (lo2 + 1) (length s - 1)) s 0 - nth lo2 s 0).
Proof.
  intros Hs Ht1 Ht2 Hpos Hlo Hn.
  set (n := length s) in *.
  assert (G : forall lo, (lo <= n - 1)%nat ->
            nth lo s 0 <= nth (Nat.min (lo + 1) (n - 1)) s 0).
  { intros lo Hl. apply sorted_nth; [assumption | lia | fold n; lia]. }
  destruct Hpos as [Hlt | [-> Hle]].
  - pose proof (G lo1 ltac:(lia)) as G1. pose proof (G lo2 Hlo) as G2.
    assert (B : nth (Nat.min (lo1 + 1) (n - 1)) s 0 <= nth lo2 s 0).
    { apply sorted_nth; [assumption | lia | fold n; lia]. }
    nra.
  - pose proof (G lo2 Hlo) as G2. nra.
Qed.

Lemma NR_le (x y : N) : (x <= y)%N -> NR x <= NR y.
Proof. intros H. apply IZR_le. lia. Qed.

Lemma NR_lt (x y : N) : (x < y)%N -> NR x < NR y.
Proof. intros H. apply IZR_lt. lia. Qed.

Lemma NR_mul (x y : N) : NR (x * y) = NR x * NR y.
Proof. unfold NR. rewrite N2Z.inj_mul. apply mult_IZR. Qed.

Lemma NR_add (x y : N) : NR (x + y) = NR x + NR y.
Proof. unfold NR. rewrite N2Z.inj_add. apply plus_IZR. Qed.

(** The fractional part of a position [k / den]. *)
Lemma NR_frac (k den : N) :
  (0 < den)%N ->
  0 <= NR (k mod den) / NR den < 1 /\
  NR (k mod den) / NR den = NR k / NR den - NR (k / den).
Proof.
  intros Hd.
  assert (Hd' : 0 < NR den) by (apply (NR_lt 0); assumption).
  assert (Hm : (k mod den < den)%N) by (apply N.mod_lt; lia).
  pose proof (NR_le 0 (k mod den) (N.le_0_l _)) as H0. change (NR 0) with 0 in H0.
  pose proof (NR_lt _ _ Hm) as H1.
  split.
  - split.
    + apply Rmult_le_pos; [assumption | left; apply Rinv_0_lt_compat; assumption].
    + apply Rmult_lt_reg_r with (NR den); [assumption|].
      unfold Rdiv. rewrite Rmult_assoc, Rinv_l by lra. lra.
  - pose proof (N.Div0.div_mod k den) as E.
    apply (f_equal NR) in E. rewrite NR_add, NR_mul in E.
    rewrite E. field. lra.
Qed.

Lemma N_div_cross (a b c d : N) :
  (0 < b)%N -> (0 < d)%N -> (a * d <= c * b)%N -> (a / b <= c / d)%N.
Proof.
  intros Hb Hd H.
  rewrite <- (N.Div0.div_mul_cancel_r a b d) by lia.
  rewrite <- (N.Div0.div_mul_cancel_r c d b) by lia.
  rewrite (N.mul_comm d b). apply N.Div0.div_le_mono. assumption.
Qed.

Lemma np_percentile_mono (vs : list R) (p q : percent) :
  vs <> [] -> percent_le p q -> (pnum q <= 100 * pden q)%N ->
  np_percentile vs p <= np_percentile vs q.
Proof.
  intros Hne (Hp & Hq & Hpq) H100.
  unfold np_percentile.
  assert (Hn : (0 < length (np_sort vs))%nat).
  { rewrite np_sort_length. destruct vs; [contradiction | simpl; lia]. }
  set (s := np_sort vs) in *. set (n := length s) in *.
  set (m := N.of_nat (n - 1)).
  set (k1 := (pnum p * m)%N). set (d1 := (100 * pden p)%N).
  set (k2 := (pnum q * m)%N). set (d2 := (100 * pden q)%N).
  assert (Hd1 : (0 < d1)%N) by (unfold d1; lia).
  assert (Hd2 : (0 < d2)%N) by (unfold d2; lia).
  assert (Hcross : (k1 * d2 <= k2 * d1)%N) by (unfold k1, k2, d1, d2; nia).
  destruct (NR_frac k1 d1 Hd1) as [B1 F1]. destruct (NR_frac k2 d2 Hd2) as [B2 F2].
  apply lerp_mono; try assumption.
  - apply np_sort_sorted.
  - pose proof (N_div_cross k1 d1 k2 d2 Hd1 Hd2 Hcross) as Hdiv.
    destruct (N.eq_dec (k1 / d1) (k2 / d2)) as [E | NE].
    + right. split; [rewrite E; reflexivity|].
      rewrite F1, F2, E.
      assert (NR k1 / NR d1 <= NR k2 / NR d2); [|lra].
      assert (Hd1' : 0 < NR d1) by (apply (NR_lt 0); assumption).
      assert (Hd2' : 0 < NR d2) by (apply (NR_lt 0); assumption).
      pose proof (NR_le _ _ Hcross) as C. rewrite !NR_mul in C.
      apply Rmult_le_reg_r with (NR d1 * NR d2); [nra|].
      replace (NR k1 / NR d1 * (NR d1 * NR d2)) with (NR k1 * NR d2) by (field; lra).
      replace (NR k2 / NR d2 * (NR d1 * NR d2)) with (NR k2 * NR d1) by (field; lra).
      exact C.
    + left. lia.
  - assert ((k2 / d2 <= m)%N); [|unfold m in *; lia].
    apply N.Div0.div_le_upper_bound. unfold k2, d2. nia.
Qed.

(** ** The limits [logScaleImage] derives *)

Lemma limits_ordered (a : ndarray) (vmin vmax : R) :
  limits a = Returns (vmin, vmax) -> vmin <= vmax.
Proof.
  unfold limits, get_limits_of.
  destruct (finite_values (ravel a)) as [|v vs] eqn:E; [discriminate|].
  intros H. injection H as <- <-.
  apply np_percentile_mono.
  - discriminate.
  - unfold percent_le; cbn; lia.
  - cbn; lia.
Qed.

(** An array with the two entries [x <= y]: the limits are the two
    interpolated positions between them. *)
Lemma limits_pair (x y : R) :
  x <= y ->
  limits (mkArray 2 [[Fin x; Fin y]]) =
  Returns (x + 10 / 100 * (y - x), x + 9995 / 10000 * (y - x)).
Proof.
  intros H. unfold limits, get_limits_of.
  cbn [ravel rows concat app finite_values flat_map].
  unfold np_percentile. cbn [np_sort fold_right insert].
  destruct (Rle_dec x y) as [_ | N]; [|contradiction].
  cbn [length Nat.sub lower_percentile upper_percentile pnum pden].
  change (N.to_nat (10 * N.of_nat 1 / (100 * 1))) with 0%nat.
  change (N.to_nat (9995 * N.of_nat 1 / (100 * 100))) with 0%nat.
  change (NR ((10 * N.of_nat 1) mod (100 * 1))) with 10.
  change (NR (100 * 1)) with 100.
  change (NR ((9995 * N.of_nat 1) mod (100 * 100))) with 9995.
  change (NR (100 * 100)) with 10000.
  reflexivity.
Qed.

(** An array with a single entry: both limits are that entry. *)
Lemma limits_single (x : R) :
  limits (mkArray 1 [[Fin x]]) = Returns (x, x).
Proof.
  unfold limits, get_limits_of.
  cbn [ravel rows concat app finite_values flat_map].
  unfold np_percentile. cbn [np_sort fold_right insert].
  cbn [length Nat.sub lower_percentile upper_percentile pnum pden].
  change (N.to_nat (10 * N.of_nat 0 / (100 * 1))) with 0%nat.
  change (N.to_nat (9995 * N.of_nat 0 / (100 * 100))) with 0%nat.
  cbn [Nat.add Nat.min nth].
  do 2 f_equal; ring.
Qed.



(** ** Claims about [logScaleImage] *)

Lemma image_of_result (return_full : bool) (a : ndarray) (vmin vmax : R)
    (scale : LogStretch) :
  image_of (if return_full then ScaledFull a vmin vmax scale else Scaled a) = a.
Proof. destruct return_full; reflexivity. Qed.










(** C2, as the code has it: the limits are always in order.  When they
    coincide at a value other than 0, the constructor of the stretch
    raises ValueError and the store is as before; when they coincide at
    0 nothing is raised, the call returns, and every pixel of the result
    is NaN. *)
Theorem logScaleImage_degenerate
    (h : store) (image : ref) (return_full : bool) (vmin vmax : R) :
  limits (h image) = Returns (vmin, vmax) -> vmax <= vmin ->
  vmin = vmax /\
  (vmin <> 0 -> logScaleImage image return_full h = (Raises ValueError, h)) /\
  (vmin = 0 ->
   exists out,
     logScaleImage image return_full h = (Returns out, h) /\
     forall i j, (i < nrows (h image))%nat ->
       (j < length (nth i (rows (h image)) []))%nat ->
       px (image_of out) i j = NaN).
Proof.
  intros E Hle.
  pose proof (limits_ordered _ _ _ E) as Hord.
  assert (Eq : vmin = vmax) by lra. split; [exact Eq|]. subst vmax.
  split.
  - intros Hn. apply (logScaleImage_rejects _ _ _ _ _ E).
    destruct (Rtotal_order vmin 0) as [N | [Z | P]]; [| contradiction |].
    + apply coefficient_rejected; [lra | left; exact N].
    + apply coefficient_rejected; [lra | right; split; [exact P | reflexivity]].
  - intros Hz. subst vmin. eexists.
    split; [apply (logScaleImage_returns _ _ _ _ _ E);
            apply coefficient_zero_vmin; lra|].
    rewrite image_of_result. intros i j Hi Hj.
    rewrite px_amap by assumption. apply pixel_map_degenerate.
Qed.

Lemma logScaleImage_degenerate_witness :
  logScaleImage 0%nat false (store_of (mkArray 1 [[Fin 5]])) =
  (Raises ValueError, store_of (mkArray 1 [[Fin 5]])).
Proof.
  destruct (logScaleImage_degenerate (store_of (mkArray 1 [[Fin 5]])) 0%nat false 5 5)
    as (_ & H & _).
  - apply limits_single.
  - lra.
  - apply H. lra.
Defined.

(** C2, counterexample: the all-zero array [[0]] has the limits
    [vmin = vmax = 0]; the call raises nothing and returns the array
    [[NaN]]. *)
Lemma logScaleImage_degenerate_returns :
  limits (store_of (mkArray 1 [[Fin 0]]) 0%nat) = Returns (0, 0) /\
  0 >= 0 /\
  logScaleImage 0%nat false (store_of (mkArray 1 [[Fin 0]])) =
    (Returns (Scaled (mkArray 1 [[NaN]])), store_of (mkArray 1 [[Fin 0]])) /\
  ~ raises (fst (logScaleImage 0%nat false (store_of (mkArray 1 [[Fin 0]])))).
Proof.
  assert (V : logScaleImage 0%nat false (store_of (mkArray 1 [[Fin 0]])) =
              (Returns (Scaled (mkArray 1 [[NaN]])), store_of (mkArray 1 [[Fin 0]]))).
  { rewrite (logScaleImage_returns _ _ _ _ _ (limits_single 0))
      by (apply coefficient_zero_vmin; lra).
    unfold amap, store_of. cbn [rows ncols map]. rewrite pixel_map_degenerate.
    reflexivity. }
  split; [apply limits_single|]. split; [lra|]. split; [exact V|].
  rewrite V. cbn. tauto.
Qed.

(** ** Lists under broadcasting *)

Lemma map2_length {A B C : Type} (f : A -> B -> C) (l1 : list A) (l2 : list B) :
  length (map2 f l1 l2) = Nat.min (length l1) (length l2).
Proof. unfold map2. rewrite length_map. apply length_combine. Qed.

Lemma nth_map2 {A B C : Type} (f : A -> B -> C) (l1 : list A) (l2 : list B)
    (i : nat) (d : C) (d1 : A) (d2 : B) :
  (i < length l1)%nat -> (i < length l2)%nat ->
  nth i (map2 f l1 l2) d = f (nth i l1 d1) (nth i l2 d2).
Proof.
  revert l2 i. induction l1 as [|x t IH]; intros [|y u] i H1 H2; simpl in *; try lia.
  destruct i as [|i]; [reflexivity|]. apply IH; lia.
Qed.

Lemma stretch_to_length {A : Type} (n : nat) (d : A) (l : list A) :
  length (stretch_to n d l) = n.
Proof.
  unfold stretch_to. destruct (Nat.eqb_spec (length l) n); [assumption|].
  apply repeat_length.
Qed.

Lemma stretch_to_same {A : Type} (n : nat) (d : A) (l : list A) :
  length l = n -> stretch_to n d l = l.
Proof. intros H. unfold stretch_to. rewrite H, Nat.eqb_refl. reflexivity. Qed.

(** ** Shapes under broadcasting *)

Lemma bdim_same (n : nat) : bdim n n = Some n.
Proof. unfold bdim. rewrite Nat.eqb_refl. reflexivity. Qed.

Lemma broadcast2_shape (f : fval -> fval -> fval) (a b : ndarray) :
  match bshape (shape a) (shape b) with
  | Some s => exists c, broadcast2 f a b = Returns c /\ shape c = s
  | None => broadcast2 f a b = Raises ValueError
  end.
Proof.
  unfold bshape, broadcast2, shape. cbn [fst snd].
  destruct (bdim (nrows a) (nrows b)) as [n|]; [|reflexivity].
  destruct (bdim (ncols a) (ncols b)) as [m|]; [|reflexivity].
  eexists. split; [reflexivity|].
  unfold shape, nrows. cbn [rows ncols].
  rewrite map2_length, !stretch_to_length, Nat.min_id. reflexivity.
Qed.

(** Arrays of one shape: the operation is applied entry by entry. *)
Lemma broadcast2_same (f : fval -> fval -> fval) (a b : ndarray) (n m : nat) :
  wf_array a -> wf_array b -> shape a = (n, m) -> shape b = (n, m) ->
  exists c, broadcast2 f a b = Returns c /\
    wf_array c /\ shape c = (n, m) /\
    forall i j, (i < n)%nat -> (j < m)%nat ->
      px c i j = f (px a i j) (px b i j).
Proof.
  intros Wa Wb Sa Sb. unfold shape, nrows in Sa, Sb.
  injection Sa as Na Ma. injection Sb as Nb Mb.
  unfold broadcast2, nrows. rewrite Na, Nb, Ma, Mb, !bdim_same.
  rewrite !stretch_to_same by assumption.
  eexists. split; [reflexivity|].
  unfold wf_array in *. rewrite Forall_forall in Wa, Wb.
  assert (La : forall i, (i < n)%nat -> length (nth i (rows a) []) = m).
  { intros i Hi. rewrite <- Ma. apply Wa. apply nth_In. lia. }
  assert (Lb : forall i, (i < n)%nat -> length (nth i (rows b) []) = m).
  { intros i Hi. rewrite <- Mb. apply Wb. apply nth_In. lia. }
  split; [|split].
  - cbn [rows ncols]. rewrite Forall_forall. intros r Hr.
    unfold map2 in Hr. apply in_map_iff in Hr. destruct Hr as [[ra rb] [<- _]].
    rewrite length_map, length_combine, !stretch_to_length. apply Nat.min_id.
  - unfold shape, nrows. cbn [rows ncols].
    rewrite map2_length, Na, Nb, Nat.min_id. reflexivity.
  - intros i j Hi Hj. unfold px. cbn [rows].
    rewrite (nth_map2 _ _ _ i [] [] []) by lia.
    rewrite !stretch_to_same by (auto using La, Lb).
    apply nth_map2; [rewrite La | rewrite Lb]; assumption.
Qed.

Lemma wf_amap (f : fval -> fval) (a : ndarray) : wf_array a -> wf_array (amap f a).
Proof.
  unfold wf_array, amap. cbn [rows ncols]. intros H.
  rewrite Forall_forall in *. intros r Hr.
  apply in_map_iff in Hr. destruct Hr as [r' [<- Hr']].
  rewrite length_map. apply H. assumption.
Qed.

Lemma px_amap_shape (f : fval -> fval) (a : ndarray) (n m i j : nat) :
  wf_array a -> shape a = (n, m) -> (i < n)%nat -> (j < m)%nat ->
  px (amap f a) i j = f (px a i j).
Proof.
  intros W S Hi Hj. unfold shape in S. injection S as N M'.
  apply px_amap; [lia|].
  unfold wf_array in W. rewrite Forall_forall in W.
  rewrite (W (nth i (rows a) [])); [lia|]. apply nth_In. unfold nrows in N. lia.
Qed.

(** ** Layers *)

Lemma plane_of_cube_map (f : fval -> fval) (c : cube) (ch : channel) :
  plane_of ch (cube_map f c) = amap f (plane_of ch c).
Proof. destruct ch; reflexivity. Qed.

Lemma plane_of_mul_rgb (rgb : color) (a : ndarray) (ch : channel) :
  plane_of ch (mul_rgb rgb a) = amap (fmul (Fin (chan ch rgb))) a.
Proof. destruct rgb as [[r g] b]. destruct ch; reflexivity. Qed.

Lemma cube_ok_map (f : fval -> fval) (n m : nat) (c : cube) :
  cube_ok n m c -> cube_ok n m (cube_map f c).
Proof.
  intros H ch. rewrite plane_of_cube_map. destruct (H ch) as [W S].
  split; [apply wf_amap; assumption | rewrite shape_amap; assumption].
Qed.

Lemma cube_ok_mul_rgb (rgb : color) (a : ndarray) (n m : nat) :
  wf_array a -> shape a = (n, m) -> cube_ok n m (mul_rgb rgb a).
Proof.
  intros W S ch. rewrite plane_of_mul_rgb.
  split; [apply wf_amap; assumption | rewrite shape_amap; assumption].
Qed.

Lemma cube_op_same (f : fval -> fval -> fval) (x y : cube) (n m : nat) :
  cube_ok n m x -> cube_ok n m y ->
  exists c, cube_op f x y = Returns c /\ cube_ok n m c /\
    forall ch i j, (i < n)%nat -> (j < m)%nat ->
      px (plane_of ch c) i j = f (px (plane_of ch x) i j) (px (plane_of ch y) i j).
Proof.
  intros Hx Hy.
  assert (P : forall ch, exists c,
            broadcast2 f (plane_of ch x) (plane_of ch y) = Returns c /\
            wf_array c /\ shape c = (n, m) /\
            forall i j, (i < n)%nat -> (j < m)%nat ->
              px c i j = f (px (plane_of ch x) i j) (px (plane_of ch y) i j)).
  { intros ch. destruct (Hx ch), (Hy ch). apply broadcast2_same; assumption. }
  destruct (P Red) as (r & Er & Wr & Sr & Pr).
  destruct (P Green) as (g & Eg & Wg & Sg & Pg).
  destruct (P Blue) as (b & Eb & Wb & Sb & Pb).
  cbn [plane_of] in Er, Eg, Eb.
  exists (mkCube r g b). unfold cube_op. rewrite Er, Eg, Eb. cbn [bind].
  split; [reflexivity|]. split.
  - intros ch. destruct ch; cbn [plane_of plane_r plane_g plane_b]; split; assumption.
  - intros ch. destruct ch; cbn [plane_of plane_r plane_g plane_b]; assumption.
Qed.

Lemma screen_same (base layer : cube) (n m : nat) :
  cube_ok n m base -> cube_ok n m layer ->
  exists c, screen base layer = Returns c /\ cube_ok n m c /\
    forall ch i j, (i < n)%nat -> (j < m)%nat ->
      px (plane_of ch c) i j =
      screen_px (px (plane_of ch base) i j) (px (plane_of ch layer) i j).
Proof.
  intros Hb Hl.
  destruct (cube_op_same fmul _ _ n m (cube_ok_map one_minus n m base Hb)
              (cube_ok_map one_minus n m layer Hl)) as (p & Ep & Op & Pp).
  exists (cube_map one_minus p). unfold screen. rewrite Ep. cbn [bind].
  split; [reflexivity|]. split; [apply cube_ok_map; assumption|].
  intros ch i j Hi Hj. destruct (Op ch) as [Wp Sp].
  destruct (Hb ch) as [Wb Sb]. destruct (Hl ch) as [Wl Sl].
  rewrite plane_of_cube_map, (px_amap_shape _ _ n m) by assumption.
  rewrite Pp by assumption. rewrite !plane_of_cube_map.
  rewrite !(px_amap_shape _ _ n m) by assumption. reflexivity.
Qed.

(** The layers are screened one after the other, from the left. *)
Lemma screen_layers_same (layers : list cube) (base : cube) (n m : nat) :
  cube_ok n m base -> Forall (cube_ok n m) layers ->
  exists c, screen_layers base layers = Returns c /\ cube_ok n m c /\
    forall ch i j, (i < n)%nat -> (j < m)%nat ->
      px (plane_of ch c) i j =
      fold_left screen_px (map (fun l => px (plane_of ch l) i j) layers)
        (px (plane_of ch base) i j).
Proof.
  revert base. induction layers as [|layer rest IH]; intros base Hb Hl.
  - exists base. split; [reflexivity|]. split; [assumption|]. reflexivity.
  - inversion Hl as [|? ? Hlayer Hrest]; subst.
    destruct (screen_same base layer n m Hb Hlayer) as (b & Eb & Ob & Pb).
    destruct (IH b Ob Hrest) as (c & Ec & Oc & Pc).
    exists c. cbn [screen_layers]. rewrite Eb. cbn [bind].
    split; [exact Ec|]. split; [exact Oc|].
    intros ch i j Hi Hj. rewrite Pc by assumption. cbn [map fold_left].
    rewrite Pb by assumption. reflexivity.
Qed.

(** ** [np.rollaxis] *)

Lemma zip3_length {A : Type} (l1 l2 l3 : list A) (n : nat) :
  length l1 = n -> length l2 = n -> length l3 = n -> length (zip3 l1 l2 l3) = n.
Proof.
  intros H1 H2 H3. unfold zip3. rewrite !length_combine. lia.
Qed.

Lemma nth_zip3 {A : Type} (l1 l2 l3 : list A) (i : nat) (d1 d2 d3 : A) :
  length l1 = length l2 -> length l2 = length l3 ->
  nth i (zip3 l1 l2 l3) (d1, d2, d3) = (nth i l1 d1, nth i l2 d2, nth i l3 d3).
Proof.
  intros H1 H2. unfold zip3.
  rewrite combine_nth by (rewrite length_combine; lia).
  rewrite combine_nth by assumption. reflexivity.
Qed.

Lemma wf_row_length (a : ndarray) (n m i : nat) :
  wf_array a -> shape a = (n, m) -> (i < n)%nat -> length (nth i (rows a) []) = m.
Proof.
  intros W S Hi. unfold shape, nrows in S. injection S as N M'.
  unfold wf_array in W. rewrite Forall_forall in W.
  rewrite <- M'. apply W. apply nth_In. lia.
Qed.

Lemma rollaxis_same (c : cube) (n m : nat) :
  cube_ok n m c ->
  rgb_shape (rollaxis c) = (n, m) /\
  forall i j, (i < n)%nat -> (j < m)%nat ->
    rgb_px (rollaxis c) i j =
    (px (plane_of Red c) i j, px (plane_of Green c) i j, px (plane_of Blue c) i j).
Proof.
  intros H.
  destruct (H Red) as [Wr Sr]. destruct (H Green) as [Wg Sg].
  destruct (H Blue) as [Wb Sb]. cbn [plane_of] in *.
  assert (Nr : length (rows (plane_r c)) = n) by (unfold shape, nrows in Sr; congruence).
  assert (Ng : length (rows (plane_g c)) = n) by (unfold shape, nrows in Sg; congruence).
  assert (Nb : length (rows (plane_b c)) = n) by (unfold shape, nrows in Sb; congruence).
  split.
  - unfold rgb_shape, rollaxis. cbn [rgb_rows rgb_ncols].
    rewrite length_map, (zip3_length _ _ _ n) by assumption.
    unfold shape in Sr. congruence.
  - intros i j Hi Hj. unfold rgb_px, rollaxis. cbn [rgb_rows].
    set (g := fun t : list fval * list fval * list fval =>
                zip3 (fst (fst t)) (snd (fst t)) (snd t)).
    rewrite (nth_indep _ [] (g ([], [], []))).
    2:{ rewrite length_map, (zip3_length _ _ _ n) by assumption. assumption. }
    rewrite map_nth, nth_zip3 by congruence.
    unfold g. cbn [fst snd].
    rewrite nth_zip3.
    + reflexivity.
    + rewrite (wf_row_length _ n m), (wf_row_length _ n m); auto.
    + rewrite (wf_row_length _ n m), (wf_row_length _ n m); auto.
Qed.

(** ** The loop of [colorize] *)

Lemma unit_dec_true (x : R) : 0 <= x <= 1 -> unit_dec x = true.
Proof.
  intros [H0 H1]. unfold unit_dec.
  destruct (Rle_dec 0 x); [|contradiction]. destruct (Rle_dec x 1); [reflexivity | contradiction].
Qed.

Lemma to_rgb_valid (c : color) : valid_color c -> to_rgb c = Returns c.
Proof.
  destruct c as [[r g] b]. unfold valid_color, chan. cbn [fst snd].
  intros (Hr & Hg & Hb). unfold to_rgb.
  rewrite !unit_dec_true by assumption. reflexivity.
Qed.

Lemma zero_nonfinite_idem (x : fval) :
  zero_nonfinite (zero_nonfinite x) = zero_nonfinite x.
Proof. destruct x; reflexivity. Qed.

Lemma amap_amap (f g : fval -> fval) (a : ndarray) :
  amap f (amap g a) = amap (fun x => f (g x)) a.
Proof.
  unfold amap. cbn [rows ncols]. f_equal.
  rewrite map_map. apply map_ext. intros r. apply map_map.
Qed.

Lemma amap_ext_in (f g : fval -> fval) (a : ndarray) :
  (forall r x, In r (rows a) -> In x r -> f x = g x) -> amap f a = amap g a.
Proof.
  intros H. unfold amap. f_equal.
  apply map_ext_in. intros r Hr. apply map_ext_in. intros x Hx. eapply H; eassumption.
Qed.

Lemma amap_zero_idem (a : ndarray) :
  amap zero_nonfinite (amap zero_nonfinite a) = amap zero_nonfinite a.
Proof.
  rewrite amap_amap. apply amap_ext_in. intros. apply zero_nonfinite_idem.
Qed.

Lemma amap_zero_finite (a : ndarray) :
  all_finite a -> amap zero_nonfinite a = a.
Proof.
  intros H. destruct a as [m rs]. unfold amap, all_finite in *. cbn [rows ncols] in *.
  f_equal. rewrite <- (map_id rs) at 2.
  apply map_ext_in. intros r Hr. rewrite <- (map_id r) at 2.
  apply map_ext_in. intros x Hx.
  rewrite Forall_forall in H. specialize (H r Hr). rewrite Forall_forall in H.
  specialize (H x Hx). destruct x; simpl in H; try contradiction. reflexivity.
Qed.

Lemma sanitized_step (h : store) (r : ref) (rs : list ref) :
  sanitized (upd h r (amap zero_nonfinite (h r))) rs = sanitized h (r :: rs).
Proof.
  apply functional_extensionality. intros r'.
  unfold sanitized, upd. cbn [existsb].
  destruct (Nat.eqb_spec r' r) as [-> | N]; cbn [orb].
  - destruct (existsb (Nat.eqb r) rs); [apply amap_zero_idem | reflexivity].
  - reflexivity.
Qed.

Lemma layer_of_step (h : store) (r : ref) (p : ref * color) :
  layer_of (upd h r (amap zero_nonfinite (h r))) p = layer_of h p.
Proof.
  unfold layer_of, upd. destruct (Nat.eqb_spec (fst p) r) as [-> | N];
    [rewrite amap_zero_idem|]; reflexivity.
Qed.

(** With valid colours the loop builds one layer per pair, from the
    array with its non-finite entries overwritten, and leaves the store
    with these arrays overwritten. *)
Lemma colorize_loop_valid (pairs : list (ref * color)) (acc : list cube) (h : store) :
  Forall (fun p => valid_color (snd p)) pairs ->
  colorize_loop pairs acc h =
  (Returns (acc ++ map (layer_of h) pairs), sanitized h (map fst pairs)).
Proof.
  revert acc h. induction pairs as [|[r c] rest IH]; intros acc h Hv.
  - cbn. rewrite app_nil_r. reflexivity.
  - inversion Hv as [|? ? Hc Hrest]; subst. cbn [snd] in Hc.
    cbn [colorize_loop]. unfold mbind at 1. unfold lift. rewrite (to_rgb_valid c Hc).
    unfold mbind at 1. unfold load at 1.
    unfold mbind at 1. unfold write.
    unfold mbind at 1. unfold load.
    rewrite IH by assumption.
    cbn [map fst]. rewrite sanitized_step. f_equal. f_equal.
    rewrite <- app_assoc. cbn [app]. f_equal. f_equal.
    + unfold layer_of, upd. cbn [fst snd]. rewrite Nat.eqb_refl. reflexivity.
    + apply map_ext. intros p. apply layer_of_step.
Qed.

(** Whatever the colours, the loop only overwrites non-finite entries of
    arrays it was given. *)
Lemma colorize_loop_store (pairs : list (ref * color)) (acc : list cube) (h : store) :
  exists rs, snd (colorize_loop pairs acc h) = sanitized h rs /\
             incl rs (map fst pairs).
Proof.
  revert acc h. induction pairs as [|[r c] rest IH]; intros acc h.
  - exists []. split; [reflexivity | apply incl_refl].
  - cbn [colorize_loop]. unfold mbind at 1. unfold lift.
    destruct (to_rgb c) as [rgb | e].
    + unfold mbind at 1. unfold load at 1.
      unfold mbind at 1. unfold write.
      unfold mbind at 1. unfold load.
      destruct (IH (acc ++ [mul_rgb rgb (upd h r (amap zero_nonfinite (h r)) r)])
                  (upd h r (amap zero_nonfinite (h r)))) as (rs & E & I).
      exists (r :: rs). rewrite E, sanitized_step. split; [reflexivity|].
      cbn [map fst]. intros x [<- | Hx]; [left; reflexivity | right; apply I; assumption].
    + exists []. split; [reflexivity|]. intros x [].
Qed.

Lemma sanitized_frame (h : store) (rs : list ref) (r : ref) :
  (~ In r rs -> sanitized h rs r = h r) /\
  (all_finite (h r) -> sanitized h rs r = h r) /\
  (In r rs -> sanitized h rs r = amap zero_nonfinite (h r)).
Proof.
  unfold sanitized.
  destruct (existsb (Nat.eqb r) rs) eqn:E.
  - apply existsb_exists in E. destruct E as (x & Hx & Ex).
    apply Nat.eqb_eq in Ex. subst x.
    split; [intros N; contradiction|]. split; [apply amap_zero_finite | reflexivity].
  - split; [reflexivity|]. split; [reflexivity|].
    intros Hin. assert (T : existsb (Nat.eqb r) rs = true).
    { apply existsb_exists. exists r. split; [assumption | apply Nat.eqb_refl]. }
    congruence.
Qed.

(** The store after [colorize]. *)
Lemma colorize_store (args : list ref) (colors : list color) (h : store) :
  exists rs, snd (colorize args colors h) = sanitized h rs /\ incl rs args.
Proof.
  unfold colorize.
  destruct (negb (length args =? length colors)%nat).
  - exists []. split; [reflexivity|]. intros x [].
  - unfold mbind.
    destruct (colorize_loop_store (combine args colors) [] h) as (rs & E & I).
    assert (I' : incl rs args).
    { intros x Hx. specialize (I x Hx). apply in_map_iff in I.
      destruct I as ([r c] & <- & Hin). apply in_combine_l in Hin. exact Hin. }
    exists rs. split; [|exact I'].
    destruct (colorize_loop (combine args colors) [] h) as [[images | e] h'];
      cbn [snd] in E; subst h'.
    + destruct images as [|base layers]; [reflexivity|].
      unfold lift. destruct (screen_layers base layers); reflexivity.
    + reflexivity.
Qed.

Lemma colorize_valid (args : list ref) (colors : list color) (h : store) :
  length args = length colors -> Forall valid_color colors ->
  colorize args colors h =
  (match map (layer_of h) (combine args colors) with
   | [] => Raises IndexError
   | base :: layers => c <- screen_layers base layers ;; Returns (rollaxis c)
   end,
   sanitized h args).
Proof.
  intros L V. unfold colorize. rewrite L, Nat.eqb_refl. cbn [negb].
  unfold mbind. rewrite colorize_loop_valid.
  2:{ rewrite Forall_forall in *. intros [r c] Hin. cbn [snd].
      apply V. apply in_combine_r in Hin. exact Hin. }
  cbn [app].
  assert (F : map fst (combine args colors) = args).
  { clear V. revert colors L. induction args as [|r t IH]; intros [|c u] L;
      simpl in *; try discriminate; [reflexivity|]. f_equal. apply IH. lia. }
  rewrite F.
  destruct (map (layer_of h) (combine args colors)) as [|base layers];
    [reflexivity|].
  unfold lift, ret. destruct (screen_layers base layers); reflexivity.
Qed.

(** ** Claims about [colorize] *)

Lemma layer_of_ok (h : store) (p : ref * color) (n m : nat) :
  wf_array (h (fst p)) -> shape (h (fst p)) = (n, m) -> cube_ok n m (layer_of h p).
Proof.
  intros W S. unfold layer_of. apply cube_ok_mul_rgb.
  - apply wf_amap; assumption.
  - rewrite shape_amap; assumption.
Qed.

Lemma px_layer_of (h : store) (p : ref * color) (n m i j : nat) (ch : channel) :
  wf_array (h (fst p)) -> shape (h (fst p)) = (n, m) ->
  (i < n)%nat -> (j < m)%nat ->
  px (plane_of ch (layer_of h p)) i j = weighted_px h ch i j p.
Proof.
  intros W S Hi Hj. unfold layer_of, weighted_px.
  rewrite plane_of_mul_rgb.
  rewrite (px_amap_shape _ _ n m); auto using wf_amap.
  - rewrite (px_amap_shape _ _ n m) by assumption. reflexivity.
  - rewrite shape_amap. assumption.
Qed.

(** Arrays of one shape are composited pixel by pixel: the first weighted
    layer, then one screen step per further layer, in input order. *)
Lemma colorize_same_shape (h : store) (args : list ref) (colors : list color)
    (n m : nat) :
  length args = length colors -> args <> [] -> Forall valid_color colors ->
  (forall r, In r args -> wf_array (h r) /\ shape (h r) = (n, m)) ->
  exists out,
    fst (colorize args colors h) = Returns out /\
    rgb_shape out = (n, m) /\
    forall i j, (i < n)%nat -> (j < m)%nat ->
      rgb_px out i j =
      (composite_px (map (weighted_px h Red i j) (combine args colors)),
       composite_px (map (weighted_px h Green i j) (combine args colors)),
       composite_px (map (weighted_px h Blue i j) (combine args colors))).
Proof.
  intros L Hne V Hs.
  rewrite (colorize_valid args colors h L V). cbn [fst].
  assert (Hp : forall p, In p (combine args colors) ->
               wf_array (h (fst p)) /\ shape (h (fst p)) = (n, m)).
  { intros [r c] Hin. apply Hs. apply in_combine_l in Hin. exact Hin. }
  destruct (combine args colors) as [|p0 rest] eqn:E.
  { destruct args; [contradiction|]. destruct colors; simpl in *; discriminate. }
  cbn [map].
  destruct (Hp p0 (or_introl eq_refl)) as [W0 S0].
  assert (O : Forall (cube_ok n m) (map (layer_of h) rest)).
  { rewrite Forall_forall. intros c Hc. apply in_map_iff in Hc.
    destruct Hc as (p & <- & Hin). destruct (Hp p (or_intror Hin)).
    apply layer_of_ok; assumption. }
  destruct (screen_layers_same _ _ n m (layer_of_ok h p0 n m W0 S0) O)
    as (c & Ec & Oc & Pc).
  rewrite Ec. cbn [bind]. eexists. split; [reflexivity|].
  destruct (rollaxis_same c n m Oc) as [Sh Px].
  split; [exact Sh|].
  intros i j Hi Hj. rewrite Px by assumption.
  assert (Q : forall ch,
            px (plane_of ch c) i j =
            composite_px (weighted_px h ch i j p0 :: map (weighted_px h ch i j) rest)).
  { intros ch. rewrite Pc by assumption. cbn [composite_px].
    rewrite (px_layer_of h p0 n m) by assumption.
    f_equal. rewrite map_map. apply map_ext_in. intros p Hin.
    destruct (Hp p (or_intror Hin)). apply (px_layer_of h p n m); assumption. }
  rewrite !Q. reflexivity.
Qed.

Lemma wf_ones (n m : nat) : wf_array (ones n m) /\ shape (ones n m) = (n, m).
Proof.
  unfold wf_array, shape, nrows, ones. cbn [rows ncols]. split.
  - rewrite Forall_forall. intros r Hr. apply repeat_spec in Hr. subst r.
    apply repeat_length.
  - rewrite repeat_length. reflexivity.
Qed.

Lemma px_ones (n m i j : nat) : (i < n)%nat -> (j < m)%nat -> px (ones n m) i j = Fin 1.
Proof.
  intros Hi Hj. unfold px, ones. cbn [rows].
  rewrite (nth_indep _ [] (repeat (Fin 1) m)) by (rewrite repeat_length; assumption).
  rewrite nth_repeat. rewrite (nth_indep _ NaN (Fin 1)) by (rewrite repeat_length; assumption).
  apply nth_repeat.
Qed.

Lemma valid_red_green : Forall valid_color [red; green].
Proof.
  repeat constructor; unfold valid_color, chan, red, green; cbn [fst snd]; lra.
Qed.

(** C7: for arrays of one shape, each pixel of the composite is the fold,
    from the left and in input order, of [base = 1 - (1 - base) * (1 - layer)]
    over the images multiplied by their colours; two all-ones arrays with
    red and green give (1, 1, 0) at every pixel. *)
Theorem colorize_screen_fold :
  (forall (h : store) (args : list ref) (colors : list color) (n m : nat),
     length args = length colors -> args <> [] -> Forall valid_color colors ->
     (forall r, In r args -> wf_array (h r) /\ shape (h r) = (n, m)) ->
     exists out,
       fst (colorize args colors h) = Returns out /\
       rgb_shape out = (n, m) /\
       forall i j, (i < n)%nat -> (j < m)%nat ->
         rgb_px out i j =
         (composite_px (map (weighted_px h Red i j) (combine args colors)),
          composite_px (map (weighted_px h Green i j) (combine args colors)),
          composite_px (map (weighted_px h Blue i j) (combine args colors)))) /\
  (forall (h : store) (r1 r2 : ref) (n m : nat),
     h r1 = ones n m -> h r2 = ones n m ->
     exists out,
       fst (colorize [r1; r2] [red; green] h) = Returns out /\
       rgb_shape out = (n, m) /\
       forall i j, (i < n)%nat -> (j < m)%nat ->
         rgb_px out i j = (Fin 1, Fin 1, Fin 0)).
Proof.
  split; [exact colorize_same_shape|].
  intros h r1 r2 n m H1 H2.
  destruct (colorize_same_shape h [r1; r2] [red; green] n m eq_refl
              ltac:(discriminate) valid_red_green) as (out & E & S & P).
  { intros r [<- | [<- | []]]; [rewrite H1 | rewrite H2]; apply wf_ones. }
  exists out. split; [exact E|]. split; [exact S|].
  intros i j Hi Hj. rewrite (P i j Hi Hj).
  cbn [combine map composite_px fold_left]. unfold weighted_px. cbn [fst snd].
  rewrite H1, H2, (px_ones n m i j Hi Hj).
  unfold red, green, chan, screen_px, one_minus. cbn [fst snd zero_nonfinite fmul fsub].
  f_equal; [f_equal|]; f_equal; ring.
Qed.

Lemma colorize_screen_fold_witness :
  exists out,
    fst (colorize [0%nat; 1%nat] [red; green] (store_of (ones 2 3))) = Returns out /\
    rgb_shape out = (2%nat, 3%nat) /\
    forall i j, (i < 2)%nat -> (j < 3)%nat ->
      rgb_px out i j = (Fin 1, Fin 1, Fin 0).
Proof.
  apply (proj2 colorize_screen_fold (store_of (ones 2 3)) 0%nat 1%nat 2%nat 3%nat);
    reflexivity.
Defined.

(** C8, as the code has it: [logScaleImage] leaves the store as it was;
    [colorize] leaves alone every array it was not given and every array
    without a non-finite entry, and with as many valid colours as images
    it overwrites the non-finite entries of each array it was given
    with 0, in the caller's array. *)
Theorem inputs_after_call :
  (forall (h : store) (image : ref) (return_full : bool),
     snd (logScaleImage image return_full h) = h) /\
  (forall (h : store) (args : list ref) (colors : list color) (r : ref),
     (~ In r args -> snd (colorize args colors h) r = h r) /\
     (all_finite (h r) -> snd (colorize args colors h) r = h r)) /\
  (forall (h : store) (args : list ref) (colors : list color) (r : ref),
     length args = length colors -> Forall valid_color colors -> In r args ->
     snd (colorize args colors h) r = amap zero_nonfinite (h r)).
Proof.
  split; [exact logScaleImage_store|]. split.
  - intros h args colors r.
    destruct (colorize_store args colors h) as (rs & E & I). rewrite E.
    destruct (sanitized_frame h rs r) as (F1 & F2 & _).
    split; [|exact F2]. intros N. apply F1. intros Hin. apply N, I, Hin.
  - intros h args colors r L V Hin.
    rewrite (colorize_valid args colors h L V). cbn [snd].
    apply (sanitized_frame h args r). exact Hin.
Qed.

Lemma valid_red : Forall valid_color [red].
Proof.
  repeat constructor; unfold valid_color, chan, red; cbn [fst snd]; lra.
Qed.

Lemma inputs_after_call_witness :
  snd (colorize [0%nat] [red] (store_of (mkArray 2 [[Fin 1; PInf]]))) 0%nat =
  amap zero_nonfinite (mkArray 2 [[Fin 1; PInf]]).
Proof.
  apply (proj2 (proj2 inputs_after_call) (store_of (mkArray 2 [[Fin 1; PInf]]))
           [0%nat] [red] 0%nat).
  - reflexivity.
  - exact valid_red.
  - left. reflexivity.
Defined.

(** C8, counterexample: [colorize] called on the array [[NaN]] returns,
    and the caller's array is [[0]] afterwards. *)
Lemma colorize_overwrites_input :
  store_of (mkArray 1 [[NaN]]) 0%nat = mkArray 1 [[NaN]] /\
  ~ raises (fst (colorize [0%nat] [red] (store_of (mkArray 1 [[NaN]])))) /\
  snd (colorize [0%nat] [red] (store_of (mkArray 1 [[NaN]]))) 0%nat =
    mkArray 1 [[Fin 0]] /\
  snd (colorize [0%nat] [red] (store_of (mkArray 1 [[NaN]]))) 0%nat <>
    store_of (mkArray 1 [[NaN]]) 0%nat.
Proof.
  rewrite (colorize_valid [0%nat] [red] _ eq_refl valid_red).
  split; [reflexivity|]. split; [cbn; tauto|].
  split; [reflexivity|]. cbn. discriminate.
Qed.

(** ** Shapes of the layers *)

Lemma uniform_map (f : fval -> fval) (c : cube) :
  uniform c -> uniform (cube_map f c) /\ cube_shape (cube_map f c) = cube_shape c.
Proof.
  intros U. unfold cube_shape. cbn [cube_map plane_r]. rewrite shape_amap.
  split; [|reflexivity]. intros ch. rewrite plane_of_cube_map, shape_amap.
  unfold cube_shape. cbn [cube_map plane_r]. rewrite shape_amap. apply U.
Qed.

Lemma uniform_layer_of (h : store) (p : ref * color) :
  uniform (layer_of h p) /\ cube_shape (layer_of h p) = shape (h (fst p)).
Proof.
  assert (S : forall ch, shape (plane_of ch (layer_of h p)) = shape (h (fst p))).
  { intros ch. unfold layer_of. rewrite plane_of_mul_rgb, !shape_amap. reflexivity. }
  split; [|exact (S Red)]. intros ch. unfold cube_shape.
  rewrite (S ch). symmetry. exact (S Red).
Qed.

Lemma cube_op_shape (f : fval -> fval -> fval) (x y : cube) :
  uniform x -> uniform y ->
  match bshape (cube_shape x) (cube_shape y) with
  | Some s => exists c, cube_op f x y = Returns c /\ uniform c /\ cube_shape c = s
  | None => cube_op f x y = Raises ValueError
  end.
Proof.
  intros Ux Uy.
  pose proof (broadcast2_shape f (plane_r x) (plane_r y)) as Br.
  pose proof (broadcast2_shape f (plane_g x) (plane_g y)) as Bg.
  pose proof (broadcast2_shape f (plane_b x) (plane_b y)) as Bb.
  pose proof (Ux Green) as Xg. pose proof (Ux Blue) as Xb.
  pose proof (Uy Green) as Yg. pose proof (Uy Blue) as Yb.
  cbn [plane_of] in Xg, Xb, Yg, Yb. rewrite Xg, Yg in Bg. rewrite Xb, Yb in Bb.
  fold (cube_shape x) (cube_shape y) in Br.
  unfold cube_op.
  destruct (bshape (cube_shape x) (cube_shape y)) as [s|].
  - destruct Br as (r & -> & Sr), Bg as (g & -> & Sg), Bb as (b & -> & Sb).
    cbn [bind]. eexists. split; [reflexivity|]. split.
    + intros ch. unfold cube_shape. destruct ch; cbn [plane_of plane_r plane_g plane_b];
        congruence.
    + exact Sr.
  - rewrite Br. reflexivity.
Qed.

Lemma screen_shape (base layer : cube) :
  uniform base -> uniform layer ->
  match bshape (cube_shape base) (cube_shape layer) with
  | Some s => exists c, screen base layer = Returns c /\ uniform c /\ cube_shape c = s
  | None => screen base layer = Raises ValueError
  end.
Proof.
  intros Ub Ul.
  destruct (uniform_map one_minus base Ub) as [Ub' Sb'].
  destruct (uniform_map one_minus layer Ul) as [Ul' Sl'].
  pose proof (cube_op_shape fmul _ _ Ub' Ul') as H. rewrite Sb', Sl' in H.
  unfold screen.
  destruct (bshape (cube_shape base) (cube_shape layer)) as [s|].
  - destruct H as (p & -> & Up & Sp). cbn [bind].
    destruct (uniform_map one_minus p Up) as [U' S'].
    eexists. split; [reflexivity|]. split; [exact U' | congruence].
  - rewrite H. reflexivity.
Qed.

Lemma screen_layers_shape (layers : list cube) (base : cube) :
  uniform base -> Forall uniform layers ->
  match bshapes (cube_shape base) (map cube_shape layers) with
  | Some s => exists c, screen_layers base layers = Returns c /\
                        uniform c /\ cube_shape c = s
  | None => screen_layers base layers = Raises ValueError
  end.
Proof.
  revert base. induction layers as [|layer rest IH]; intros base Ub Ul.
  - cbn. exists base. repeat split; auto.
  - inversion Ul as [|? ? Ul1 Ul2]; subst.
    cbn [map bshapes screen_layers].
    pose proof (screen_shape base layer Ub Ul1) as H.
    destruct (bshape (cube_shape base) (cube_shape layer)) as [s|].
    + destruct H as (b & -> & Ub' & <-). cbn [bind]. apply IH; assumption.
    + rewrite H. reflexivity.
Qed.

Lemma rollaxis_shape (c : cube) : uniform c -> rgb_shape (rollaxis c) = cube_shape c.
Proof.
  intros U. pose proof (U Green) as G. pose proof (U Blue) as B.
  unfold cube_shape, shape, nrows in *. cbn [plane_of] in G, B.
  injection G as G _. injection B as B _.
  unfold rgb_shape, rollaxis, zip3. cbn [rgb_rows rgb_ncols].
  rewrite length_map, !length_combine, G, B, !Nat.min_id. reflexivity.
Qed.

(** The layers built from a store are screened into a cube of the
    broadcast shape, or the screening raises. *)
Lemma composite_shapes (h : store) (p0 : ref * color) (ps : list (ref * color)) :
  match bshapes (shape (h (fst p0))) (map (fun p => shape (h (fst p))) ps) with
  | Some s => exists c, screen_layers (layer_of h p0) (map (layer_of h) ps) = Returns c /\
                        rgb_shape (rollaxis c) = s
  | None => screen_layers (layer_of h p0) (map (layer_of h) ps) = Raises ValueError
  end.
Proof.
  destruct (uniform_layer_of h p0) as [U0 S0].
  assert (Ul : Forall uniform (map (layer_of h) ps)).
  { rewrite Forall_forall. intros c Hc. apply in_map_iff in Hc.
    destruct Hc as (p & <- & _). apply uniform_layer_of. }
  assert (Sl : map cube_shape (map (layer_of h) ps) =
               map (fun p => shape (h (fst p))) ps).
  { rewrite map_map. apply map_ext. intros p. apply uniform_layer_of. }
  pose proof (screen_layers_shape _ _ U0 Ul) as H. rewrite S0, Sl in H.
  destruct (bshapes (shape (h (fst p0))) (map (fun p => shape (h (fst p))) ps)) as [s|].
  - destruct H as (c & -> & Uc & Sc). exists c. split; [reflexivity|].
    rewrite rollaxis_shape by assumption. exact Sc.
  - exact H.
Qed.

Lemma map_fst_combine {A B : Type} (f : A -> nat * nat) (l1 : list A) (l2 : list B) :
  length l1 = length l2 ->
  map (fun p => f (fst p)) (combine l1 l2) = map f l1.
Proof.
  revert l2. induction l1 as [|x t IH]; intros [|y u] L; simpl in *;
    try discriminate; [reflexivity|]. f_equal. apply IH. lia.
Qed.

(** C9, as the code has it: with as many valid colours as images, the
    call raises (a ValueError) exactly when the shapes of the images cannot
    be broadcast together; images whose shapes differ but can be broadcast
    raise nothing, and the result has the broadcast shape. *)
Theorem colorize_shape_mismatch
    (h : store) (r0 : ref) (rest : list ref) (colors : list color) :
  length (r0 :: rest) = length colors -> Forall valid_color colors ->
  match bshapes (shape (h r0)) (map (fun r => shape (h r)) rest) with
  | Some s => exists out, fst (colorize (r0 :: rest) colors h) = Returns out /\
                          rgb_shape out = s
  | None => fst (colorize (r0 :: rest) colors h) = Raises ValueError
  end.
Proof.
  intros L V. rewrite (colorize_valid _ _ h L V). cbn [fst].
  destruct colors as [|c0 cs]; [discriminate|]. cbn [combine map].
  assert (Lr : length rest = length cs) by (simpl in L; lia).
  pose proof (composite_shapes h (r0, c0) (combine rest cs)) as H.
  cbn [fst] in H.
  rewrite (map_fst_combine (fun r => shape (h r)) rest cs Lr) in H.
  destruct (bshapes (shape (h r0)) (map (fun r => shape (h r)) rest)) as [s|].
  - destruct H as (c & -> & Sc). cbn [bind]. exists (rollaxis c).
    split; [reflexivity | exact Sc].
  - rewrite H. reflexivity.
Qed.

Lemma colorize_shape_mismatch_witness :
  fst (colorize [0%nat; 1%nat] [red; green] (store_list [ones 2 3; ones 3 2])) =
  Raises ValueError.
Proof.
  exact (colorize_shape_mismatch (store_list [ones 2 3; ones 3 2]) 0%nat [1%nat]
           [red; green] eq_refl valid_red_green).
Defined.

(** C9, counterexample: an image of shape (1, 1) and an image of shape
    (2, 2) do not share a shape, and compositing them raises nothing: the
    result has shape (2, 2). *)
Lemma colorize_broadcasts_silently :
  shape (store_list [ones 1 1; ones 2 2] 0%nat) = (1%nat, 1%nat) /\
  shape (store_list [ones 1 1; ones 2 2] 1%nat) = (2%nat, 2%nat) /\
  exists out,
    fst (colorize [0%nat; 1%nat] [red; green] (store_list [ones 1 1; ones 2 2])) =
      Returns out /\
    rgb_shape out = (2%nat, 2%nat) /\
    ~ raises (fst (colorize [0%nat; 1%nat] [red; green]
                     (store_list [ones 1 1; ones 2 2]))).
Proof.
  split; [reflexivity|]. split; [reflexivity|].
  rewrite (colorize_valid [0%nat; 1%nat] [red; green] _ eq_refl valid_red_green).
  cbn [fst combine map].
  pose proof (composite_shapes (store_list [ones 1 1; ones 2 2])
                (0%nat, red) [(1%nat, green)]) as H.
  match type of H with
  | match ?b with _ => _ end => change b with (Some (2%nat, 2%nat)) in H
  end.
  cbn [map] in H. destruct H as (c & E & S). unfold ref in *. rewrite E. cbn [bind].
  exists (rollaxis c). split; [reflexivity|]. split; [exact S|]. cbn. tauto.
Qed.

(* ================================================================= *)
(** * Further properties *)

(** ** [plot_ellipse] *)

(** The singular values of a positive semi-definite matrix add up to its
    trace and multiply to its determinant. *)
Lemma svd_psd_values (A : mat2) U s1 s2 Vh :
  psd A -> is_svd A (U, (s1, s2), Vh) ->
  s1 + s2 = trace A /\ s1 * s2 = det A.
Proof.
  intros HA H.
  destruct (psd_entries A HA) as (Ha & Hc & Hd).
  pose proof (svd_det _ _ _ _ _ H) as D.
  pose proof (svd_trace_sq _ _ _ _ _ H) as T.
  destruct HA as [Hsym _]. rewrite (symmetric_mT A Hsym) in T.
  destruct H as (_ & _ & Hs & _).
  assert (P : s1 * s2 = det A).
  { assert (0 <= s1 * s2) by nra. nra. }
  split; [|exact P].
  assert (Q : (s1 + s2) * (s1 + s2) = trace A * trace A).
  { unfold trace in *. unfold det in P. unfold symmetric in Hsym.
    destruct A as [a b c d]; simpl in *. subst c. nra. }
  assert (0 <= trace A) by (unfold trace; lra).
  nra.
Qed.

(** The ellipse of one row of the table. *)
Lemma row_ellipse (svd : mat2 -> outcome svd_triple) (w : row) :
  -1 <= pxy w <= 1 -> svd_ok svd (row_cov w) ->
  exists s1 s2 ang,
    cov_to_ellipse svd (row_cov w) (rx w, ry w) =
      Returns (mkEllipse (rx w, ry w) (Fin (2 * sqrt s1)) (Fin (2 * sqrt s2)) ang) /\
    0 <= s2 <= s1 /\
    s1 + s2 = sx w * sx w + sy w * sy w /\
    s1 * s2 = (sx w * sx w) * (sy w * sy w) * (1 - pxy w * pxy w).
Proof.
  intros Hp [[[U [s1 s2]] Vh] [E H]].
  destruct (svd_psd_values _ U s1 s2 Vh (row_cov_psd w Hp) H) as [T D].
  pose proof H as (_ & _ & Hs & _).
  exists s1, s2. eexists.
  split; [apply (cov_to_ellipse_value svd _ _ U s1 s2 Vh E Hs)|].
  split; [exact Hs|]. split.
  - rewrite T. reflexivity.
  - rewrite D. unfold det, row_cov. cbn [m00 m01 m10 m11]. ring.
Qed.

(** X1. The squared half axes of the ellipse of a row with a correlation
    coefficient in [-1, 1] add up to [sx^2 + sy^2], and their product is
    [sx^2 sy^2 (1 - pxy^2)]. *)
Theorem row_ellipse_axes (svd : mat2 -> outcome svd_triple) (w : row) :
  -1 <= pxy w <= 1 -> svd_ok svd (row_cov w) ->
  exists wd ht ang,
    cov_to_ellipse svd (row_cov w) (rx w, ry w) =
      Returns (mkEllipse (rx w, ry w) (Fin wd) (Fin ht) ang) /\
    0 <= ht <= wd /\
    (wd / 2) * (wd / 2) + (ht / 2) * (ht / 2) = sx w * sx w + sy w * sy w /\
    ((wd / 2) * (wd / 2)) * ((ht / 2) * (ht / 2)) =
      (sx w * sx w) * (sy w * sy w) * (1 - pxy w * pxy w).
Proof.
  intros Hp Hok.
  destruct (row_ellipse svd w Hp Hok) as (s1 & s2 & ang & E & Hs & T & D).
  exists (2 * sqrt s1), (2 * sqrt s2), ang.
  split; [exact E|].
  pose proof (sqrt_pos s2) as P2.
  pose proof (sqrt_le_1_alt s2 s1 (proj2 Hs)) as P1.
  split; [lra|].
  replace (2 * sqrt s1 / 2 * (2 * sqrt s1 / 2)) with (sqrt s1 * sqrt s1) by field.
  replace (2 * sqrt s2 / 2 * (2 * sqrt s2 / 2)) with (sqrt s2 * sqrt s2) by field.
  rewrite !sqrt_sqrt by lra. split; assumption.
Qed.

Lemma row_ellipse_axes_witness :
  exists wd ht ang,
    cov_to_ellipse svd_ref (row_cov (mkRow 5 7 2 1 (1 / 2))) (5, 7) =
      Returns (mkEllipse (5, 7) (Fin wd) (Fin ht) ang) /\
    0 <= ht <= wd /\
    (wd / 2) * (wd / 2) + (ht / 2) * (ht / 2) = 2 * 2 + 1 * 1 /\
    ((wd / 2) * (wd / 2)) * ((ht / 2) * (ht / 2)) =
      (2 * 2) * (1 * 1) * (1 - 1 / 2 * (1 / 2)).
Proof.
  apply (row_ellipse_axes svd_ref (mkRow 5 7 2 1 (1 / 2))).
  - cbn [pxy]. lra.
  - apply svd_ref_ok. reflexivity.
Defined.

(** X2. A perfectly correlated row gives a degenerate ellipse: the height is
    0 and the width is [2 sqrt (sx^2 + sy^2)]. *)
Theorem row_ellipse_degenerate (svd : mat2 -> outcome svd_triple) (w : row) :
  pxy w = 1 \/ pxy w = -1 -> svd_ok svd (row_cov w) ->
  exists ang,
    cov_to_ellipse svd (row_cov w) (rx w, ry w) =
      Returns (mkEllipse (rx w, ry w)
                 (Fin (2 * sqrt (sx w * sx w + sy w * sy w))) (Fin 0) ang).
Proof.
  intros Hp Hok.
  assert (Hp' : -1 <= pxy w <= 1) by (destruct Hp as [-> | ->]; lra).
  destruct (row_ellipse svd w Hp' Hok) as (s1 & s2 & ang & E & Hs & T & D).
  assert (Z : s1 * s2 = 0).
  { rewrite D. destruct Hp as [-> | ->]; ring. }
  assert (Z2 : s2 = 0).
  { apply Rmult_integral in Z. destruct Z as [Z | Z]; [lra | exact Z]. }
  subst s2. exists ang. rewrite E.
  replace s1 with (sx w * sx w + sy w * sy w) by lra.
  rewrite sqrt_0, Rmult_0_r. reflexivity.
Qed.

Lemma row_ellipse_degenerate_witness :
  exists ang,
    cov_to_ellipse svd_ref (row_cov (mkRow 0 0 3 4 1)) (0, 0) =
      Returns (mkEllipse (0, 0) (Fin (2 * sqrt (3 * 3 + 4 * 4))) (Fin 0) ang).
Proof.
  apply (row_ellipse_degenerate svd_ref (mkRow 0 0 3 4 1)).
  - left. reflexivity.
  - apply svd_ref_ok. reflexivity.
Defined.

(** Any decomposition of [diag(c, a)] with [a > c >= 0] has the singular
    values [(a, c)], and the first column of [U] is plus or minus the
    second unit vector. *)
Lemma svd_diag_column_swapped (a c : R) U s1 s2 Vh :
  0 <= c < a -> is_svd (diag2 c a) (U, (s1, s2), Vh) ->
  s1 = a /\ s2 = c /\ m00 U = 0 /\ (m10 U = 1 \/ m10 U = -1).
Proof.
  intros Hac H.
  assert (He : eigenvalues (diag2 c a) a c).
  { unfold eigenvalues, trace, det; simpl. split; ring. }
  assert (Hord : Rabs c <= Rabs a) by (rewrite !Rabs_pos_eq by lra; lra).
  assert (Hsym : symmetric (diag2 c a)) by reflexivity.
  destruct (svd_sym_values _ U s1 s2 Vh a c Hsym He Hord H) as [E1 E2].
  rewrite Rabs_pos_eq in E1, E2 by lra. subst s1 s2.
  pose proof (svd_gram _ _ _ _ _ H) as G.
  rewrite conjugate_diag in G.
  destruct H as (HU & _).
  destruct (orthogonal_entries U HU) as (C1 & C2 & C3 & R1 & R2 & R3).
  apply (f_equal m11) in G. simpl in G.
  assert (Z : (a * a - c * c) * (m11 U * m11 U) = 0) by nra.
  apply Rmult_integral in Z. destruct Z as [Z | Z]; [nra|].
  assert (Hsq : m10 U * m10 U = 1) by lra.
  assert (H00 : m00 U * m00 U = 0) by lra.
  repeat split; try reflexivity.
  - nra.
  - assert (F : (m10 U - 1) * (m10 U + 1) = 0) by lra.
    apply Rmult_integral in F. destruct F; [left | right]; lra.
Qed.

Lemma arctan2_1_0 : arctan2 1 0 = PI / 2.
Proof. unfold arctan2. rewrite Rsign_zero, Rsign_pos by lra. reflexivity. Qed.

Lemma arctan2_m1_0 : arctan2 (-1) 0 = - (PI / 2).
Proof. unfold arctan2. rewrite Rsign_zero, Rsign_neg by lra. reflexivity. Qed.

(** X3. An uncorrelated row with [sy > sx >= 0]: the width is the extent of
    the major axis, [2 sy], not the extent along x; the height is [2 sx]
    and the ellipse is turned by a quarter. *)
Theorem row_ellipse_vertical (svd : mat2 -> outcome svd_triple) (w : row) :
  pxy w = 0 -> 0 <= sx w < sy w -> svd_ok svd (row_cov w) ->
  exists ang,
    cov_to_ellipse svd (row_cov w) (rx w, ry w) =
      Returns (mkEllipse (rx w, ry w) (Fin (2 * sy w)) (Fin (2 * sx w)) ang) /\
    (ang = 90 \/ ang = -90).
Proof.
  intros Hp Hs Hok.
  assert (D : row_cov w = diag2 (sx w * sx w) (sy w * sy w)).
  { unfold row_cov, diag2. rewrite Hp. f_equal; ring. }
  rewrite D in *. destruct Hok as [[[U [s1 s2]] Vh] [E H]].
  assert (Hsq : 0 <= sx w * sx w < sy w * sy w) by nra.
  destruct (svd_diag_column_swapped _ _ U s1 s2 Vh Hsq H) as (-> & -> & U00 & U10).
  eexists. split.
  - rewrite (cov_to_ellipse_value svd _ _ U _ _ Vh E) by lra.
    rewrite !sqrt_square by lra. reflexivity.
  - rewrite U00. destruct U10 as [-> | ->].
    + left. rewrite arctan2_1_0. unfold degrees. field. apply PI_neq0.
    + right. rewrite arctan2_m1_0. unfold degrees. field. apply PI_neq0.
Qed.

Lemma row_ellipse_vertical_witness :
  exists ang,
    cov_to_ellipse svd_ref (row_cov (mkRow 1 2 1 3 0)) (1, 2) =
      Returns (mkEllipse (1, 2) (Fin (2 * 3)) (Fin (2 * 1)) ang) /\
    (ang = 90 \/ ang = -90).
Proof.
  apply (row_ellipse_vertical svd_ref (mkRow 1 2 1 3 0)).
  - reflexivity.
  - cbn [sx sy]. lra.
  - apply svd_ref_ok. reflexivity.
Defined.

(** *** The loop *)

Lemma plot_rows_gca svd t ax fig : gca (snd (plot_rows svd t ax fig)) = gca fig.
Proof.
  revert fig. induction t as [|w rest IH]; intros fig; cbn [plot_rows].
  - reflexivity.
  - destruct (cov_to_ellipse svd (row_cov w) (rx w, ry w)); [|reflexivity].
    rewrite IH. reflexivity.
Qed.

Lemma plot_rows_frame svd t ax fig a :
  a <> ax -> artists (snd (plot_rows svd t ax fig)) a = artists fig a.
Proof.
  intros N. revert fig. induction t as [|w rest IH]; intros fig; cbn [plot_rows].
  - reflexivity.
  - destruct (cov_to_ellipse svd (row_cov w) (rx w, ry w)); [|reflexivity].
    rewrite IH. cbn [add_artist artists].
    destruct (Nat.eqb_spec a ax); [contradiction | reflexivity].
Qed.

Lemma plot_rows_ok svd t ax fig :
  Forall (fun w => svd_ok svd (row_cov w)) t ->
  exists es,
    fst (plot_rows svd t ax fig) = Returns tt /\
    artists (snd (plot_rows svd t ax fig)) ax = artists fig ax ++ es /\
    Forall2 drawn_for t es.
Proof.
  intros H. revert fig. induction H as [|w rest Hw Hrest IH]; intros fig.
  - exists []. cbn. rewrite app_nil_r. repeat split. constructor.
  - destruct Hw as [[[U [s1 s2]] Vh] [E S]].
    pose proof S as (_ & _ & Hs & _).
    cbn [plot_rows].
    rewrite (cov_to_ellipse_value svd _ (rx w, ry w) U s1 s2 Vh E Hs).
    set (e := mkEllipse _ _ _ _).
    destruct (IH (add_artist ax e fig)) as (es & F & A & D).
    exists (e :: es). split; [exact F|]. split.
    + rewrite A. cbn [add_artist artists]. rewrite Nat.eqb_refl, <- app_assoc.
      reflexivity.
    + constructor; [|exact D]. split; [reflexivity|].
      exists (2 * sqrt s1), (2 * sqrt s2). split; [reflexivity|].
      split; [reflexivity|].
      pose proof (sqrt_pos s2). pose proof (sqrt_le_1_alt s2 s1 (proj2 Hs)). lra.
Qed.

(** X4. When the decomposition succeeds on every row, [plot_ellipse] returns
    and has added one ellipse per row, in the order of the rows and after
    the artists already there, each centred at its point; the other axes
    and the current axes are as before. *)
Theorem plot_ellipse_appends
    (svd : mat2 -> outcome svd_triple) (t : list row) (ax : option nat)
    (fig : figure) :
  Forall (fun w => svd_ok svd (row_cov w)) t ->
  exists es,
    fst (plot_ellipse svd t ax fig) = Returns tt /\
    artists (snd (plot_ellipse svd t ax fig)) (target_axes ax fig) =
      artists fig (target_axes ax fig) ++ es /\
    Forall2 drawn_for t es /\
    (forall a, a <> target_axes ax fig ->
       artists (snd (plot_ellipse svd t ax fig)) a = artists fig a) /\
    gca (snd (plot_ellipse svd t ax fig)) = gca fig.
Proof.
  intros H. unfold plot_ellipse. fold (target_axes ax fig).
  destruct (plot_rows_ok svd t (target_axes ax fig) fig H) as (es & F & A & D).
  exists es. split; [exact F|]. split; [exact A|]. split; [exact D|].
  split; [|apply plot_rows_gca].
  intros a N. apply plot_rows_frame. exact N.
Qed.

Lemma plot_ellipse_appends_witness :
  exists es,
    fst (plot_ellipse svd_ref [mkRow 5 7 2 1 (1 / 2); mkRow 1 2 1 3 0] None
           (mkFigure 0 (fun _ => []))) = Returns tt /\
    artists (snd (plot_ellipse svd_ref [mkRow 5 7 2 1 (1 / 2); mkRow 1 2 1 3 0] None
                    (mkFigure 0 (fun _ => []))))
      (target_axes None (mkFigure 0 (fun _ => []))) =
      artists (mkFigure 0 (fun _ => [])) (target_axes None (mkFigure 0 (fun _ => [])))
      ++ es /\
    Forall2 drawn_for [mkRow 5 7 2 1 (1 / 2); mkRow 1 2 1 3 0] es /\
    (forall a, a <> target_axes None (mkFigure 0 (fun _ => [])) ->
       artists (snd (plot_ellipse svd_ref [mkRow 5 7 2 1 (1 / 2); mkRow 1 2 1 3 0]
                       None (mkFigure 0 (fun _ => [])))) a =
       artists (mkFigure 0 (fun _ => [])) a) /\
    gca (snd (plot_ellipse svd_ref [mkRow 5 7 2 1 (1 / 2); mkRow 1 2 1 3 0] None
                (mkFigure 0 (fun _ => [])))) = gca (mkFigure 0 (fun _ => [])).
Proof.
  apply (plot_ellipse_appends svd_ref [mkRow 5 7 2 1 (1 / 2); mkRow 1 2 1 3 0]
           None (mkFigure 0 (fun _ => []))).
  repeat constructor; apply svd_ref_ok; reflexivity.
Defined.

(** ** Entries of broadcast arrays *)


Lemma nth_stretch_to {A : Type} (n : nat) (d d' : A) (l : list A) (i : nat) :
  length l = n \/ length l = 1%nat -> (i < n)%nat ->
  nth i (stretch_to n d l) d' = nth (bidx (length l) n i) l d'.
Proof.
  intros H Hi. unfold stretch_to, bidx.
  destruct (Nat.eqb_spec (length l) n) as [E | N]; [reflexivity|].
  destruct H as [H | H]; [contradiction|].
  destruct l as [|x [|y t]]; simpl in H; try discriminate.
  cbn [hd nth]. rewrite (nth_indep _ d' x) by (rewrite repeat_length; assumption).
  apply nth_repeat.
Qed.

Lemma bidx_lt (k n i : nat) :
  k = n \/ k = 1%nat -> (i < n)%nat -> (bidx k n i < k)%nat.
Proof.
  intros H Hi. unfold bidx. destruct (Nat.eqb_spec k n); [lia|].
  destruct H; [contradiction | lia].
Qed.


(** ** [squared_exponential] *)



















(** ** More on [colorize] *)

(** X9. [colorize] called with a number of colours other than the number of
    images raises an AssertionError before it touches any array; called
    without any image it raises an IndexError. *)
Theorem colorize_arity :
  (forall (args : list ref) (colors : list color) (h : store),
     length args <> length colors ->
     colorize args colors h = (Raises AssertionError, h)) /\
  (forall h : store, colorize [] [] h = (Raises IndexError, h)).
Proof.
  split.
  - intros args colors h N. unfold colorize.
    destruct (Nat.eqb_spec (length args) (length colors)); [contradiction|].
    reflexivity.
  - intros h. reflexivity.
Qed.

Lemma colorize_arity_witness :
  colorize [0%nat; 1%nat] [red] (store_of (mkArray 1 [[NaN]])) =
  (Raises AssertionError, store_of (mkArray 1 [[NaN]])).
Proof.
  apply (proj1 colorize_arity [0%nat; 1%nat] [red] (store_of (mkArray 1 [[NaN]]))).
  cbn. discriminate.
Defined.

Lemma unit_dec_false (x : R) : ~ 0 <= x <= 1 -> unit_dec x = false.
Proof.
  intros N. unfold unit_dec.
  destruct (Rle_dec 0 x); [|reflexivity].
  destruct (Rle_dec x 1); [|reflexivity]. exfalso. apply N. split; assumption.
Qed.

Lemma to_rgb_invalid (c : color) : ~ valid_color c -> to_rgb c = Raises ValueError.
Proof.
  destruct c as [[r g] b]. unfold valid_color, chan. cbn [fst snd].
  intros N. unfold to_rgb.
  destruct (unit_dec r) eqn:Er; [|reflexivity].
  destruct (unit_dec g) eqn:Eg; [|reflexivity].
  destruct (unit_dec b) eqn:Eb; [|reflexivity].
  exfalso. apply N. unfold unit_dec in *.
  destruct (Rle_dec 0 r), (Rle_dec r 1), (Rle_dec 0 g), (Rle_dec g 1),
    (Rle_dec 0 b), (Rle_dec b 1); try discriminate. repeat split; assumption.
Qed.

Lemma colorize_loop_invalid (ps qs : list (ref * color)) (r : ref) (c : color)
    (acc : list cube) (h : store) :
  Forall (fun p => valid_color (snd p)) ps -> ~ valid_color c ->
  colorize_loop (ps ++ (r, c) :: qs) acc h =
  (Raises ValueError, sanitized h (map fst ps)).
Proof.
  intros V N. revert acc h. induction V as [|[r0 c0] rest Hc Hrest IH]; intros acc h.
  - cbn [app colorize_loop]. unfold mbind, lift. rewrite (to_rgb_invalid c N).
    reflexivity.
  - cbn [snd] in Hc. cbn [app colorize_loop].
    unfold mbind at 1. unfold lift. rewrite (to_rgb_valid c0 Hc).
    unfold mbind at 1. unfold load at 1.
    unfold mbind at 1. unfold write.
    unfold mbind at 1. unfold load.
    rewrite IH. cbn [map fst]. rewrite sanitized_step. reflexivity.
Qed.

Lemma combine_app {A B : Type} (l1 l1' : list A) (l2 l2' : list B) :
  length l1 = length l2 ->
  combine (l1 ++ l1') (l2 ++ l2') = combine l1 l2 ++ combine l1' l2'.
Proof.
  revert l2. induction l1 as [|x t IH]; intros [|y u] L; simpl in *;
    try discriminate; [reflexivity|]. f_equal. apply IH. lia.
Qed.

Lemma map_fst_combine_eq {A B : Type} (l1 : list A) (l2 : list B) :
  length l1 = length l2 -> map fst (combine l1 l2) = l1.
Proof.
  revert l2. induction l1 as [|x t IH]; intros [|y u] L; simpl in *;
    try discriminate; [reflexivity|]. f_equal. apply IH. lia.
Qed.

(** X10. A colour matplotlib rejects stops [colorize] with a ValueError when
    its turn comes: the arrays paired with the colours before it have had
    their non-finite entries overwritten, every other array is as it
    was. *)
Theorem colorize_invalid_color
    (pre post : list ref) (r : ref) (cpre cpost : list color) (c : color)
    (h : store) :
  length pre = length cpre -> length post = length cpost ->
  Forall valid_color cpre -> ~ valid_color c ->
  fst (colorize (pre ++ r :: post) (cpre ++ c :: cpost) h) = Raises ValueError /\
  forall r', snd (colorize (pre ++ r :: post) (cpre ++ c :: cpost) h) r' =
             sanitized h pre r'.
Proof.
  intros Lp Lq V N. unfold colorize.
  rewrite !length_app. cbn [length]. rewrite Lp, Lq, Nat.eqb_refl. cbn [negb].
  rewrite combine_app by assumption. cbn [combine].
  unfold mbind. rewrite (colorize_loop_invalid _ _ r c [] h).
  - rewrite map_fst_combine_eq by assumption. split; reflexivity.
  - rewrite Forall_forall in *. intros [r0 c0] Hin. cbn [snd].
    apply V. apply in_combine_r in Hin. exact Hin.
  - exact N.
Qed.

Lemma colorize_invalid_color_witness :
  fst (colorize ([0%nat] ++ 1%nat :: [2%nat]) ([red] ++ (2, 0, 0) :: [green])
         (store_of (mkArray 1 [[NaN]]))) = Raises ValueError /\
  forall r', snd (colorize ([0%nat] ++ 1%nat :: [2%nat]) ([red] ++ (2, 0, 0) :: [green])
                    (store_of (mkArray 1 [[NaN]]))) r' =
             sanitized (store_of (mkArray 1 [[NaN]])) [0%nat] r'.
Proof.
  apply (colorize_invalid_color [0%nat] [2%nat] 1%nat [red] [green] (2, 0, 0)).
  - reflexivity.
  - reflexivity.
  - exact valid_red.
  - unfold valid_color, chan. cbn [fst snd]. lra.
Defined.

(** *** The composite as a product *)

Lemma complement_product_cons (w : R) (ws : list R) :
  complement_product (w :: ws) = (1 - w) * complement_product ws.
Proof. reflexivity. Qed.

Lemma complement_product_nil : complement_product [] = 1.
Proof. reflexivity. Qed.

Lemma fold_screen_px (rest : list R) (b : R) :
  fold_left screen_px (map Fin rest) (Fin b) =
  Fin (1 - (1 - b) * complement_product rest).
Proof.
  revert b. induction rest as [|l t IH]; intros b; cbn [map fold_left].
  - rewrite complement_product_nil. f_equal. ring.
  - unfold screen_px at 2, one_minus. cbn [fsub fmul].
    rewrite IH, complement_product_cons. f_equal. ring.
Qed.

Lemma composite_px_product (ws : list R) :
  ws <> [] -> composite_px (map Fin ws) = Fin (1 - complement_product ws).
Proof.
  destruct ws as [|v rest]; [contradiction|]. intros _.
  cbn [map composite_px]. rewrite fold_screen_px. reflexivity.
Qed.

Lemma weighted_px_weight (h : store) (ch : channel) (i j : nat) (p : ref * color) :
  weighted_px h ch i j p = Fin (weight h ch i j p).
Proof.
  unfold weighted_px, weight. destruct (px (h (fst p)) i j); cbn [zero_nonfinite fmul];
    reflexivity.
Qed.

Lemma complement_product_perm (ws ws' : list R) :
  Permutation ws ws' -> complement_product ws = complement_product ws'.
Proof.
  induction 1; rewrite ?complement_product_cons.
  - reflexivity.
  - rewrite IHPermutation. reflexivity.
  - ring.
  - congruence.
Qed.

Lemma complement_product_unit (ws : list R) :
  Forall (fun w => 0 <= w <= 1) ws -> 0 <= complement_product ws <= 1.
Proof.
  induction 1 as [|w t Hw Ht IH].
  - rewrite complement_product_nil. lra.
  - rewrite complement_product_cons. nra.
Qed.

Lemma complement_product_app (ws vs : list R) :
  complement_product (ws ++ vs) = complement_product ws * complement_product vs.
Proof.
  induction ws as [|w t IH]; cbn [app].
  - rewrite complement_product_nil. ring.
  - rewrite !complement_product_cons, IH. ring.
Qed.

Lemma composite_weights (h : store) (ch : channel) (i j : nat)
    (pairs : list (ref * color)) :
  pairs <> [] ->
  composite_px (map (weighted_px h ch i j) pairs) =
  Fin (1 - complement_product (map (weight h ch i j) pairs)).
Proof.
  intros Ne. rewrite <- composite_px_product.
  - f_equal. rewrite map_map. apply map_ext. intros p. apply weighted_px_weight.
  - destruct pairs; [contradiction | discriminate].
Qed.

Lemma combine_nonempty {A B : Type} (l1 : list A) (l2 : list B) :
  length l1 = length l2 -> l1 <> [] -> combine l1 l2 <> [].
Proof.
  destruct l1 as [|x t]; [contradiction|]. destruct l2 as [|y u]; discriminate.
Qed.


Lemma wf_NaN_Inf : wf_array (mkArray 2 [[Fin 1; PInf]]) /\
                   shape (mkArray 2 [[Fin 1; PInf]]) = (1%nat, 2%nat).
Proof. split; [repeat constructor | reflexivity]. Qed.


Lemma in_combine_exists_l {A B : Type} (l1 : list A) (l2 : list B) (x : A) :
  length l1 = length l2 -> In x l1 -> exists y, In (x, y) (combine l1 l2).
Proof.
  revert l2. induction l1 as [|a t IH]; intros [|b u] L Hin; simpl in *;
    try contradiction; try discriminate.
  destruct Hin as [-> | Hin]; [exists b; left; reflexivity|].
  destruct (IH u ltac:(lia) Hin) as [y Hy]. exists y. right. exact Hy.
Qed.

Lemma in_combine_exists_r {A B : Type} (l1 : list A) (l2 : list B) (y : B) :
  length l1 = length l2 -> In y l2 -> exists x, In (x, y) (combine l1 l2).
Proof.
  revert l2. induction l1 as [|a t IH]; intros [|b u] L Hin; simpl in *;
    try contradiction; try discriminate.
  destruct Hin as [-> | Hin]; [exists a; left; reflexivity|].
  destruct (IH u ltac:(lia) Hin) as [x Hx]. exists x. right. exact Hx.
Qed.

(** X12. In exact arithmetic the order of the images does not matter: the same
    images with the same colours, passed in another order, give the same
    pixels. *)
Theorem colorize_order_independent
    (h : store) (args args' : list ref) (colors colors' : list color) (n m : nat) :
  length args = length colors -> length args' = length colors' ->
  args <> [] -> Forall valid_color colors ->
  (forall r, In r args -> wf_array (h r) /\ shape (h r) = (n, m)) ->
  Permutation (combine args colors) (combine args' colors') ->
  exists out out',
    fst (colorize args colors h) = Returns out /\
    fst (colorize args' colors' h) = Returns out' /\
    rgb_shape out = rgb_shape out' /\
    forall i j, (i < n)%nat -> (j < m)%nat -> rgb_px out i j = rgb_px out' i j.
Proof.
  intros L L' Hne V Hs Hperm.
  assert (Ne : combine args colors <> []) by (apply combine_nonempty; assumption).
  assert (Ne' : combine args' colors' <> []).
  { intros Z. rewrite Z in Hperm. apply Permutation_sym, Permutation_nil in Hperm.
    contradiction. }
  assert (Hne' : args' <> []) by (intros ->; apply Ne'; reflexivity).
  assert (V' : Forall valid_color colors').
  { rewrite Forall_forall in *. intros c Hc.
    destruct (in_combine_exists_r args' colors' c L' Hc) as [r Hr].
    apply (Permutation_in _ (Permutation_sym Hperm)) in Hr.
    apply in_combine_r in Hr. apply V. exact Hr. }
  assert (Hs' : forall r, In r args' -> wf_array (h r) /\ shape (h r) = (n, m)).
  { intros r Hr. destruct (in_combine_exists_l args' colors' r L' Hr) as [c Hc].
    apply (Permutation_in _ (Permutation_sym Hperm)) in Hc.
    apply in_combine_l in Hc. apply Hs. exact Hc. }
  destruct (colorize_same_shape h args colors n m L Hne V Hs) as (out & E & S & P).
  destruct (colorize_same_shape h args' colors' n m L' Hne' V' Hs')
    as (out' & E' & S' & P').
  exists out, out'. split; [exact E|]. split; [exact E'|].
  split; [congruence|].
  intros i j Hi Hj. rewrite (P i j Hi Hj), (P' i j Hi Hj).
  rewrite !composite_weights by assumption.
  rewrite !(complement_product_perm _ _
              (Permutation_map (weight h _ i j) Hperm)).
  reflexivity.
Qed.

Lemma colorize_order_independent_witness :
  exists out out',
    fst (colorize [0%nat; 1%nat] [red; green]
           (store_list [ones 1 2; mkArray 2 [[Fin 1; PInf]]])) = Returns out /\
    fst (colorize [1%nat; 0%nat] [green; red]
           (store_list [ones 1 2; mkArray 2 [[Fin 1; PInf]]])) = Returns out' /\
    rgb_shape out = rgb_shape out' /\
    forall i j, (i < 1)%nat -> (j < 2)%nat -> rgb_px out i j = rgb_px out' i j.
Proof.
  apply (colorize_order_independent
           (store_list [ones 1 2; mkArray 2 [[Fin 1; PInf]]])
           [0%nat; 1%nat] [1%nat; 0%nat] [red; green] [green; red] 1 2).
  - reflexivity.
  - reflexivity.
  - discriminate.
  - exact valid_red_green.
  - intros r [<- | [<- | []]]; [apply wf_ones | exact wf_NaN_Inf].
  - apply perm_swap.
Defined.

Lemma weight_unit (h : store) (ch : channel) (i j : nat) (p : ref * color) :
  valid_color (snd p) -> unit_or_nonfinite (px (h (fst p)) i j) ->
  0 <= weight h ch i j p <= 1.
Proof.
  intros (Vr & Vg & Vb) U. unfold weight.
  assert (C : 0 <= chan ch (snd p) <= 1) by (destruct ch; assumption).
  destruct (px (h (fst p)) i j); cbn [unit_or_nonfinite] in U; nra.
Qed.

(** X13. Images whose pixels lie in [0, 1] or are not finite, with valid
    colours, give a composite whose every channel lies in [0, 1]. *)
Theorem colorize_unit_range (h : store) (args : list ref) (colors : list color)
    (n m : nat) :
  length args = length colors -> args <> [] -> Forall valid_color colors ->
  (forall r, In r args -> wf_array (h r) /\ shape (h r) = (n, m)) ->
  (forall r i j, In r args -> unit_or_nonfinite (px (h r) i j)) ->
  exists out,
    fst (colorize args colors h) = Returns out /\
    forall i j, (i < n)%nat -> (j < m)%nat ->
      in_unit (fst (fst (rgb_px out i j))) /\
      in_unit (snd (fst (rgb_px out i j))) /\
      in_unit (snd (rgb_px out i j)).
Proof.
  intros L Hne V Hs Hu.
  destruct (colorize_same_shape h args colors n m L Hne V Hs) as (out & E & S & P).
  exists out. split; [exact E|].
  intros i j Hi Hj. rewrite (P i j Hi Hj).
  rewrite !composite_weights by (apply combine_nonempty; assumption).
  cbn [fst snd in_unit].
  assert (B : forall ch,
            0 <= 1 - complement_product (map (weight h ch i j) (combine args colors)) <= 1).
  { intros ch.
    assert (F : Forall (fun w => 0 <= w <= 1)
                  (map (weight h ch i j) (combine args colors))).
    { rewrite Forall_forall. intros w Hw. apply in_map_iff in Hw.
      destruct Hw as ([r c] & <- & Hin). apply weight_unit; cbn [fst snd].
      - rewrite Forall_forall in V. apply V. apply in_combine_r in Hin. exact Hin.
      - apply Hu. apply in_combine_l in Hin. exact Hin. }
    pose proof (complement_product_unit _ F). lra. }
  repeat split; apply B.
Qed.

Lemma colorize_unit_range_witness :
  exists out,
    fst (colorize [0%nat; 1%nat] [red; green] (store_of (mkArray 2 [[Fin 1; PInf]]))) =
      Returns out /\
    forall i j, (i < 1)%nat -> (j < 2)%nat ->
      in_unit (fst (fst (rgb_px out i j))) /\
      in_unit (snd (fst (rgb_px out i j))) /\
      in_unit (snd (rgb_px out i j)).
Proof.
  apply (colorize_unit_range (store_of (mkArray 2 [[Fin 1; PInf]]))
           [0%nat; 1%nat] [red; green] 1 2).
  - reflexivity.
  - discriminate.
  - exact valid_red_green.
  - intros r _. exact wf_NaN_Inf.
  - intros r i j _. unfold px, store_of. cbn [rows].
    destruct i as [|[|i]], j as [|[|[|j]]]; cbn; try lra; exact I.
Defined.

Lemma valid_black : valid_color black.
Proof. unfold valid_color, chan, black. cbn [fst snd]. lra. Qed.

(** X14. A further image with the colour black changes no pixel of the
    composite. *)
Theorem colorize_black_layer
    (h : store) (args : list ref) (colors : list color) (r : ref) (n m : nat) :
  length args = length colors -> args <> [] -> Forall valid_color colors ->
  (forall r', In r' (r :: args) -> wf_array (h r') /\ shape (h r') = (n, m)) ->
  exists out out',
    fst (colorize args colors h) = Returns out /\
    fst (colorize (args ++ [r]) (colors ++ [black]) h) = Returns out' /\
    forall i j, (i < n)%nat -> (j < m)%nat -> rgb_px out' i j = rgb_px out i j.
Proof.
  intros L Hne V Hs.
  assert (Hs1 : forall r', In r' args -> wf_array (h r') /\ shape (h r') = (n, m)).
  { intros r' Hr. apply Hs. right. exact Hr. }
  assert (Hs2 : forall r', In r' (args ++ [r]) ->
                wf_array (h r') /\ shape (h r') = (n, m)).
  { intros r' Hr. apply Hs. apply in_app_or in Hr.
    destruct Hr as [Hr | [<- | []]]; [right; exact Hr | left; reflexivity]. }
  assert (L2 : length (args ++ [r]) = length (colors ++ [black])).
  { rewrite !length_app. cbn [length]. lia. }
  assert (V2 : Forall valid_color (colors ++ [black])).
  { apply Forall_app. split; [exact V|]. constructor; [exact valid_black | constructor]. }
  assert (Hne2 : args ++ [r] <> []) by (destruct args; discriminate).
  destruct (colorize_same_shape h args colors n m L Hne V Hs1) as (out & E & S & P).
  destruct (colorize_same_shape h _ _ n m L2 Hne2 V2 Hs2) as (out' & E' & S' & P').
  exists out, out'. split; [exact E|]. split; [exact E'|].
  intros i j Hi Hj. rewrite (P i j Hi Hj), (P' i j Hi Hj).
  rewrite !composite_weights by (apply combine_nonempty; assumption).
  rewrite combine_app by assumption. cbn [combine].
  rewrite !map_app, !complement_product_app. cbn [map].
  rewrite !complement_product_cons, !complement_product_nil.
  unfold weight at 2 4 6. unfold black, chan. cbn [fst snd].
  f_equal; [f_equal|]; f_equal; ring.
Qed.

Lemma colorize_black_layer_witness :
  exists out out',
    fst (colorize [0%nat] [red] (store_of (mkArray 2 [[Fin 1; PInf]]))) = Returns out /\
    fst (colorize ([0%nat] ++ [1%nat]) ([red] ++ [black])
           (store_of (mkArray 2 [[Fin 1; PInf]]))) = Returns out' /\
    forall i j, (i < 1)%nat -> (j < 2)%nat -> rgb_px out' i j = rgb_px out i j.
Proof.
  apply (colorize_black_layer (store_of (mkArray 2 [[Fin 1; PInf]]))
           [0%nat] [red] 1%nat 1 2).
  - reflexivity.
  - discriminate.
  - exact valid_red.
  - intros r' _. exact wf_NaN_Inf.
Defined.

Lemma sanitized_idem (h : store) (rs : list ref) :
  sanitized (sanitized h rs) rs = sanitized h rs.
Proof.
  apply functional_extensionality. intros r. unfold sanitized.
  destruct (existsb (Nat.eqb r) rs); [apply amap_zero_idem | reflexivity].
Qed.

Lemma layer_of_sanitized (h : store) (rs : list ref) (p : ref * color) :
  layer_of (sanitized h rs) p = layer_of h p.
Proof.
  unfold layer_of, sanitized.
  destruct (existsb (Nat.eqb (fst p)) rs); [rewrite amap_zero_idem|]; reflexivity.
Qed.

(** X15. With as many valid colours as images, a second call on the arrays the
    first call has left gives the same outcome and changes no array any
    more. *)
Theorem colorize_twice (h : store) (args : list ref) (colors : list color) :
  length args = length colors -> Forall valid_color colors ->
  colorize args colors (snd (colorize args colors h)) = colorize args colors h.
Proof.
  intros L V. rewrite (colorize_valid args colors h L V). cbn [snd].
  rewrite (colorize_valid args colors _ L V), sanitized_idem.
  f_equal.
  rewrite (map_ext _ _ (layer_of_sanitized h args)). reflexivity.
Qed.

Lemma colorize_twice_witness :
  colorize [0%nat; 0%nat] [red; green]
    (snd (colorize [0%nat; 0%nat] [red; green] (store_of (mkArray 2 [[NaN; PInf]])))) =
  colorize [0%nat; 0%nat] [red; green] (store_of (mkArray 2 [[NaN; PInf]])).
Proof.
  apply (colorize_twice (store_of (mkArray 2 [[NaN; PInf]])) [0%nat; 0%nat] [red; green]).
  - reflexivity.
  - exact valid_red_green.
Defined.

(** ** More on [logScaleImage] *)

Lemma Rsign_scale (c y : R) : 0 < c -> Rsign (c * y) = Rsign y.
Proof.
  intros Hc. destruct (Rsign_cases y) as [[H ->] | [[H ->] | [H ->]]].
  - apply Rsign_pos. nra.
  - apply Rsign_neg. nra.
  - subst y. rewrite Rmult_0_r. apply Rsign_zero.
Qed.

Lemma fdiv_scale (c x y : R) :
  0 < c -> fdiv (Fin (c * x)) (Fin (c * y)) = fdiv (Fin x) (Fin y).
Proof.
  intros Hc. cbn [fdiv]. rewrite !Rsign_scale by assumption.
  destruct (Rsign_cases y) as [[H ->] | [[H ->] | [H ->]]]; try reflexivity;
    f_equal; field; lra.
Qed.

Lemma rescale_scale (c vmin vmax : R) (v : fval) :
  0 < c -> rescale (c * vmin) (c * vmax) (fmul (Fin c) v) = rescale vmin vmax v.
Proof.
  intros Hc. unfold rescale. cbn [fsub].
  replace (c * vmax - c * vmin) with (c * (vmax - vmin)) by ring.
  destruct v as [x | | |]; cbn [fmul].
  - cbn [fsub]. replace (c * x - c * vmin) with (c * (x - vmin)) by ring.
    rewrite fdiv_scale by assumption. reflexivity.
  - rewrite (Rsign_pos c Hc). cbn [sign_mul inf_of fsub fdiv].
    rewrite Rsign_scale by assumption. reflexivity.
  - rewrite (Rsign_pos c Hc). cbn [sign_mul inf_of fsub fdiv].
    rewrite Rsign_scale by assumption. reflexivity.
  - reflexivity.
Qed.

Lemma pixel_map_scale (c vmin vmax : R) (v : fval) :
  0 < c -> pixel_map (c * vmin) (c * vmax) (fmul (Fin c) v) = pixel_map vmin vmax v.
Proof.
  intros Hc. unfold pixel_map.
  rewrite rescale_scale, fdiv_scale by assumption. reflexivity.
Qed.

Lemma finite_values_scale (c : R) (l : list fval) :
  0 < c -> finite_values (map (fmul (Fin c)) l) = map (Rmult c) (finite_values l).
Proof.
  intros Hc. induction l as [|x t IH]; [reflexivity|].
  unfold finite_values in *. cbn [map flat_map]. rewrite IH.
  destruct x; cbn [fmul]; rewrite ?(Rsign_pos c Hc); reflexivity.
Qed.

Lemma ravel_amap (f : fval -> fval) (a : ndarray) :
  ravel (amap f a) = map f (ravel a).
Proof. unfold ravel, amap. cbn [rows]. symmetry. apply concat_map. Qed.

Lemma insert_scale (c x : R) (l : list R) :
  0 < c -> insert (c * x) (map (Rmult c) l) = map (Rmult c) (insert x l).
Proof.
  intros Hc. induction l as [|y t IH]; [reflexivity|].
  cbn [map insert].
  destruct (Rle_dec x y) as [H | H], (Rle_dec (c * x) (c * y)) as [H' | H'].
  - reflexivity.
  - exfalso. apply H'. nra.
  - exfalso. apply H. nra.
  - cbn [map]. rewrite IH. reflexivity.
Qed.

Lemma np_sort_scale (c : R) (l : list R) :
  0 < c -> np_sort (map (Rmult c) l) = map (Rmult c) (np_sort l).
Proof.
  intros Hc. induction l as [|x t IH]; [reflexivity|].
  cbn [map np_sort fold_right]. fold (np_sort (map (Rmult c) t)) (np_sort t).
  rewrite IH. apply insert_scale. exact Hc.
Qed.

Lemma nth_scale (c : R) (l : list R) (i : nat) :
  nth i (map (Rmult c) l) 0 = c * nth i l 0.
Proof.
  revert i. induction l as [|x t IH]; intros [|i]; cbn [map nth].
  - ring.
  - ring.
  - reflexivity.
  - apply IH.
Qed.

Lemma np_percentile_scale (c : R) (vs : list R) (q : percent) :
  0 < c -> np_percentile (map (Rmult c) vs) q = c * np_percentile vs q.
Proof.
  intros Hc. unfold np_percentile.
  rewrite np_sort_scale by assumption. rewrite length_map, !nth_scale. ring.
Qed.

Lemma limits_scale (c : R) (a : ndarray) (vmin vmax : R) :
  0 < c -> limits a = Returns (vmin, vmax) ->
  limits (ascale c a) = Returns (c * vmin, c * vmax).
Proof.
  intros Hc. unfold limits, get_limits_of, ascale.
  rewrite ravel_amap, finite_values_scale by assumption.
  destruct (finite_values (ravel a)) as [|v vs]; [discriminate|].
  intros H. injection H as <- <-.
  change (map (Rmult c) (v :: vs)) with (c * v :: map (Rmult c) vs).
  cbv iota. change (c * v :: map (Rmult c) vs) with (map (Rmult c) (v :: vs)).
  rewrite !np_percentile_scale by assumption. reflexivity.
Qed.

Lemma limits_scale_raises (c : R) (a : ndarray) (e : exn) :
  0 < c -> limits a = Raises e -> limits (ascale c a) = Raises e.
Proof.
  intros Hc. unfold limits, get_limits_of, ascale.
  rewrite ravel_amap, finite_values_scale by assumption.
  destruct (finite_values (ravel a)) as [|v vs]; [|discriminate].
  intros H. exact H.
Qed.

(** X16. Multiplying every pixel by one positive factor multiplies both limits
    by it and changes neither the scaled image nor, when the call raises,
    the exception. *)
Theorem logScaleImage_scale_invariant
    (c : R) (h h' : store) (image image' : ref) (return_full : bool) :
  0 < c -> h' image' = ascale c (h image) ->
  outcome_image (fst (logScaleImage image' return_full h')) =
    outcome_image (fst (logScaleImage image return_full h)) /\
  forall vmin vmax, limits (h image) = Returns (vmin, vmax) ->
    limits (h' image') = Returns (c * vmin, c * vmax).
Proof.
  intros Hc Eh. split.
  - destruct (limits (h image)) as [[vmin vmax] | e] eqn:E.
    + pose proof (limits_scale c _ _ _ Hc E) as E'. rewrite <- Eh in E'.
      destruct (nonpositive (fsub (fdiv (Fin vmax) (Fin vmin)) (Fin 1))) eqn:A.
      * rewrite (logScaleImage_rejects _ _ _ _ _ E A).
        rewrite (logScaleImage_rejects _ _ _ _ _ E');
          [reflexivity | rewrite fdiv_scale by assumption; exact A].
      * rewrite (logScaleImage_returns _ _ _ _ _ E A).
        rewrite (logScaleImage_returns _ _ _ _ _ E')
          by (rewrite fdiv_scale by assumption; exact A).
        cbn [fst outcome_image]. f_equal.
        rewrite !image_of_result, Eh. unfold ascale. rewrite amap_amap.
        apply amap_ext_in. intros r x _ _. apply pixel_map_scale. exact Hc.
    + pose proof (limits_scale_raises c _ _ Hc E) as E'. rewrite <- Eh in E'.
      rewrite (logScaleImage_raises _ _ _ _ E), (logScaleImage_raises _ _ _ _ E').
      reflexivity.
  - intros vmin vmax E. rewrite Eh. apply limits_scale; assumption.
Qed.

Lemma logScaleImage_scale_invariant_witness :
  outcome_image
    (fst (logScaleImage 1%nat false
            (store_list [mkArray 2 [[Fin 1; Fin 3]];
                         ascale 2 (mkArray 2 [[Fin 1; Fin 3]])]))) =
  outcome_image
    (fst (logScaleImage 0%nat false
            (store_list [mkArray 2 [[Fin 1; Fin 3]];
                         ascale 2 (mkArray 2 [[Fin 1; Fin 3]])]))) /\
  forall vmin vmax,
    limits (store_list [mkArray 2 [[Fin 1; Fin 3]];
                        ascale 2 (mkArray 2 [[Fin 1; Fin 3]])] 0%nat) =
      Returns (vmin, vmax) ->
    limits (store_list [mkArray 2 [[Fin 1; Fin 3]];
                        ascale 2 (mkArray 2 [[Fin 1; Fin 3]])] 1%nat) =
      Returns (2 * vmin, 2 * vmax).
Proof.
  apply (logScaleImage_scale_invariant 2
           (store_list [mkArray 2 [[Fin 1; Fin 3]];
                        ascale 2 (mkArray 2 [[Fin 1; Fin 3]])])
           (store_list [mkArray 2 [[Fin 1; Fin 3]];
                        ascale 2 (mkArray 2 [[Fin 1; Fin 3]])])
           0%nat 1%nat false).
  - lra.
  - reflexivity.
Defined.

(** ** Clipping and positive images *)









(** *** Images of positive pixels *)






(** ** The stacked RGB image *)

Lemma assignable_spec (k n : nat) :
  assignable k n = true <-> k = n \/ k = 1%nat.
Proof.
  unfold assignable. rewrite orb_true_iff, !Nat.eqb_eq. reflexivity.
Qed.

Lemma broadcast_to_fits (n m : nat) (src : ndarray) :
  fits src n m ->
  broadcast_to n m src =
  Returns (mkArray m (map (stretch_to m NaN) (stretch_to n [] (rows src)))).
Proof.
  intros [Hn Hm]. unfold broadcast_to.
  apply assignable_spec in Hn, Hm. rewrite Hn, Hm. reflexivity.
Qed.

Lemma broadcast_to_misfit (n m : nat) (src : ndarray) :
  ~ fits src n m -> broadcast_to n m src = Raises ValueError.
Proof.
  intros H. unfold broadcast_to.
  destruct (assignable (nrows src) n) eqn:En; [|reflexivity].
  destruct (assignable (ncols src) m) eqn:Em; [|reflexivity].
  exfalso. apply H. split; apply assignable_spec; assumption.
Qed.

Lemma stretched_ok (n m : nat) (src : ndarray) :
  wf_array src -> fits src n m ->
  let a := mkArray m (map (stretch_to m NaN) (stretch_to n [] (rows src))) in
  wf_array a /\ shape a = (n, m) /\
  forall i j, (i < n)%nat -> (j < m)%nat ->
    px a i j = px src (bidx (nrows src) n i) (bidx (ncols src) m j).
Proof.
  intros W [Hn Hm]. cbn zeta. split; [|split].
  - unfold wf_array. cbn [rows ncols]. rewrite Forall_forall.
    intros r Hr. apply in_map_iff in Hr. destruct Hr as (l & <- & _).
    apply stretch_to_length.
  - unfold shape, nrows. cbn [rows ncols].
    rewrite length_map, stretch_to_length. reflexivity.
  - intros i j Hi Hj. unfold px. cbn [rows].
    rewrite (nth_indep _ [] (stretch_to m NaN [])).
    2:{ rewrite length_map, stretch_to_length. exact Hi. }
    rewrite map_nth. rewrite (nth_stretch_to n [] [] (rows src) i Hn Hi).
    fold (nrows src).
    assert (Hb : (bidx (nrows src) n i < nrows src)%nat) by (apply bidx_lt; assumption).
    assert (Hl : length (nth (bidx (nrows src) n i) (rows src) []) = ncols src).
    { unfold wf_array in W. rewrite Forall_forall in W. apply W, nth_In. exact Hb. }
    change (length (rows src)) with (nrows src).
    rewrite (nth_stretch_to m NaN NaN _ j); [rewrite Hl; reflexivity | | exact Hj].
    rewrite Hl. exact Hm.
Qed.

Lemma fits_self (b : ndarray) : fits b (nrows b) (ncols b).
Proof. split; left; reflexivity. Qed.

Lemma bidx_same (n i : nat) : bidx n n i = i.
Proof. unfold bidx. rewrite Nat.eqb_refl. reflexivity. Qed.

Lemma RGB_image_cube (b r ir : ndarray) :
  wf_array b -> wf_array r -> wf_array ir ->
  fits ir (nrows b) (ncols b) -> fits r (nrows b) (ncols b) ->
  exists c,
    RGB_image b r ir = Returns (rollaxis (cube_map zero_nonfinite c)) /\
    cube_ok (nrows b) (ncols b) c /\
    forall i j, (i < nrows b)%nat -> (j < ncols b)%nat ->
      px (plane_r c) i j =
        px ir (bidx (nrows ir) (nrows b) i) (bidx (ncols ir) (ncols b) j) /\
      px (plane_g c) i j =
        px r (bidx (nrows r) (nrows b) i) (bidx (ncols r) (ncols b) j) /\
      px (plane_b c) i j = px b i j.
Proof.
  intros Wb Wr Wi Fi Fr.
  destruct (stretched_ok _ _ _ Wi Fi) as (W1 & S1 & P1).
  destruct (stretched_ok _ _ _ Wr Fr) as (W2 & S2 & P2).
  destruct (stretched_ok _ _ _ Wb (fits_self b)) as (W3 & S3 & P3).
  eexists. split; [|split].
  - unfold RGB_image. cbn zeta.
    rewrite (broadcast_to_fits _ _ _ Fi), (broadcast_to_fits _ _ _ Fr),
      (broadcast_to_fits _ _ _ (fits_self b)). cbn [bind]. reflexivity.
  - intros [| |]; cbn [plane_of plane_r plane_g plane_b]; split; assumption.
  - intros i j Hi Hj. cbn [plane_r plane_g plane_b].
    rewrite (P1 i j Hi Hj), (P2 i j Hi Hj), (P3 i j Hi Hj), !bidx_same.
    repeat split; reflexivity.
Qed.

Lemma cube_ok_zero (n m : nat) (c : cube) :
  cube_ok n m c -> cube_ok n m (cube_map zero_nonfinite c).
Proof.
  intros H ch. destruct (H ch) as [W S].
  destruct ch; cbn [plane_of cube_map plane_r plane_g plane_b] in *;
    (split; [apply wf_amap; assumption | rewrite shape_amap; assumption]).
Qed.

(** X19. The stacked image has the shape of the blue image; its pixel holds
    the infrared, red and blue entries in that order, an image with an
    axis of length 1 being repeated along it, and each non-finite entry
    replaced by 0. *)
Theorem RGB_image_stack (b r ir : ndarray) :
  wf_array b -> wf_array r -> wf_array ir ->
  fits ir (nrows b) (ncols b) -> fits r (nrows b) (ncols b) ->
  exists img,
    RGB_image b r ir = Returns img /\
    rgb_shape img = shape b /\
    forall i j, (i < nrows b)%nat -> (j < ncols b)%nat ->
      rgb_px img i j =
      (zero_nonfinite
         (px ir (bidx (nrows ir) (nrows b) i) (bidx (ncols ir) (ncols b) j)),
       zero_nonfinite
         (px r (bidx (nrows r) (nrows b) i) (bidx (ncols r) (ncols b) j)),
       zero_nonfinite (px b i j)).
Proof.
  intros Wb Wr Wi Fi Fr.
  destruct (RGB_image_cube b r ir Wb Wr Wi Fi Fr) as (c & E & Ok & P).
  destruct (rollaxis_same _ _ _ (cube_ok_zero _ _ _ Ok)) as [S Q].
  exists (rollaxis (cube_map zero_nonfinite c)). split; [exact E|].
  split; [exact S|].
  intros i j Hi Hj. rewrite (Q i j Hi Hj).
  destruct (P i j Hi Hj) as (P1 & P2 & P3).
  cbn [plane_of cube_map plane_r plane_g plane_b].
  destruct (Ok Red) as [W1 S1]. destruct (Ok Green) as [W2 S2].
  destruct (Ok Blue) as [W3 S3]. cbn [plane_of] in *.
  rewrite (px_amap_shape _ _ _ _ i j W1 S1 Hi Hj),
    (px_amap_shape _ _ _ _ i j W2 S2 Hi Hj),
    (px_amap_shape _ _ _ _ i j W3 S3 Hi Hj), P1, P2, P3.
  reflexivity.
Qed.

Lemma RGB_image_stack_witness :
  exists img,
    RGB_image (mkArray 2 [[Fin 1; NaN]]) (mkArray 2 [[PInf; Fin (1 / 2)]])
              (mkArray 1 [[Fin (1 / 4)]]) = Returns img /\
    rgb_shape img = shape (mkArray 2 [[Fin 1; NaN]]) /\
    forall i j, (i < nrows (mkArray 2 [[Fin 1; NaN]]))%nat ->
                (j < ncols (mkArray 2 [[Fin 1; NaN]]))%nat ->
      rgb_px img i j =
      (zero_nonfinite
         (px (mkArray 1 [[Fin (1 / 4)]])
             (bidx (nrows (mkArray 1 [[Fin (1 / 4)]]))
                   (nrows (mkArray 2 [[Fin 1; NaN]])) i)
             (bidx (ncols (mkArray 1 [[Fin (1 / 4)]]))
                   (ncols (mkArray 2 [[Fin 1; NaN]])) j)),
       zero_nonfinite
         (px (mkArray 2 [[PInf; Fin (1 / 2)]])
             (bidx (nrows (mkArray 2 [[PInf; Fin (1 / 2)]]))
                   (nrows (mkArray 2 [[Fin 1; NaN]])) i)
             (bidx (ncols (mkArray 2 [[PInf; Fin (1 / 2)]]))
                   (ncols (mkArray 2 [[Fin 1; NaN]])) j)),
       zero_nonfinite (px (mkArray 2 [[Fin 1; NaN]]) i j)).
Proof.
  apply (RGB_image_stack (mkArray 2 [[Fin 1; NaN]]) (mkArray 2 [[PInf; Fin (1 / 2)]])
           (mkArray 1 [[Fin (1 / 4)]])).
  - repeat constructor.
  - repeat constructor.
  - repeat constructor.
  - split; right; reflexivity.
  - split; left; reflexivity.
Defined.

(** X20. An image whose shape cannot be assigned into a slice of the blue
    image's shape makes the stacking raise [ValueError]. *)
Theorem RGB_image_shape_error (b r ir : ndarray) :
  ~ (fits ir (nrows b) (ncols b) /\ fits r (nrows b) (ncols b)) ->
  RGB_image b r ir = Raises ValueError.
Proof.
  intros H. unfold RGB_image. cbn zeta.
  destruct (broadcast_to (nrows b) (ncols b) ir) as [a1|e1] eqn:E1.
  - destruct (broadcast_to (nrows b) (ncols b) r) as [a2|e2] eqn:E2.
    + exfalso. apply H. split.
      * unfold broadcast_to in E1.
        destruct (assignable (nrows ir) (nrows b)) eqn:A1; [|discriminate].
        destruct (assignable (ncols ir) (ncols b)) eqn:A2; [|discriminate].
        split; apply assignable_spec; assumption.
      * unfold broadcast_to in E2.
        destruct (assignable (nrows r) (nrows b)) eqn:A1; [|discriminate].
        destruct (assignable (ncols r) (ncols b)) eqn:A2; [|discriminate].
        split; apply assignable_spec; assumption.
    + cbn [bind]. unfold broadcast_to in E2.
      destruct (assignable (nrows r) (nrows b) && assignable (ncols r) (ncols b));
        [discriminate | congruence].
  - cbn [bind]. unfold broadcast_to in E1.
    destruct (assignable (nrows ir) (nrows b) && assignable (ncols ir) (ncols b));
      [discriminate | congruence].
Qed.

Lemma RGB_image_shape_error_witness :
  RGB_image (mkArray 2 [[Fin 1; Fin 1]]) (mkArray 2 [[Fin 1; Fin 1]])
            (mkArray 3 [[Fin 1; Fin 1; Fin 1]]) = Raises ValueError.
Proof.
  apply (RGB_image_shape_error (mkArray 2 [[Fin 1; Fin 1]]) (mkArray 2 [[Fin 1; Fin 1]])
           (mkArray 3 [[Fin 1; Fin 1; Fin 1]])).
  intros [[_ [H | H]] _]; cbn in H; discriminate.
Defined.

(** X21. When the three images have one shape and every entry lies in [0, 1]
    or is not finite, every channel of every pixel of the stacked image
    lies in [0, 1]. *)
Theorem RGB_image_unit_range (b r ir : ndarray) :
  wf_array b -> wf_array r -> wf_array ir ->
  shape r = shape b -> shape ir = shape b ->
  (forall i j, unit_or_nonfinite (px b i j) /\ unit_or_nonfinite (px r i j) /\
               unit_or_nonfinite (px ir i j)) ->
  exists img,
    RGB_image b r ir = Returns img /\
    forall i j, (i < nrows b)%nat -> (j < ncols b)%nat ->
      in_unit (fst (fst (rgb_px img i j))) /\
      in_unit (snd (fst (rgb_px img i j))) /\
      in_unit (snd (rgb_px img i j)).
Proof.
  intros Wb Wr Wi Sr Si U.
  unfold shape in Sr, Si. injection Sr as Nr Mr. injection Si as Ni Mi.
  assert (Fi : fits ir (nrows b) (ncols b)) by (split; left; assumption).
  assert (Fr : fits r (nrows b) (ncols b)) by (split; left; assumption).
  destruct (RGB_image_cube b r ir Wb Wr Wi Fi Fr) as (c & E & Ok & P).
  destruct (rollaxis_same _ _ _ (cube_ok_zero _ _ _ Ok)) as [S Q].
  exists (rollaxis (cube_map zero_nonfinite c)). split; [exact E|].
  intros i j Hi Hj. rewrite (Q i j Hi Hj). cbn [fst snd].
  destruct (P i j Hi Hj) as (P1 & P2 & P3).
  cbn [plane_of cube_map plane_r plane_g plane_b].
  destruct (Ok Red) as [W1 S1]. destruct (Ok Green) as [W2 S2].
  destruct (Ok Blue) as [W3 S3]. cbn [plane_of] in *.
  rewrite (px_amap_shape _ _ _ _ i j W1 S1 Hi Hj),
    (px_amap_shape _ _ _ _ i j W2 S2 Hi Hj),
    (px_amap_shape _ _ _ _ i j W3 S3 Hi Hj), P1, P2, P3.
  rewrite Ni, Mi, Nr, Mr, !bidx_same.
  destruct (U i j) as (U1 & U2 & U3).
  assert (Z : forall x, unit_or_nonfinite x -> in_unit (zero_nonfinite x)).
  { intros [a| | |]; cbn; intros; lra. }
  repeat split; apply Z; assumption.
Qed.

Lemma RGB_image_unit_range_witness :
  exists img,
    RGB_image (mkArray 2 [[Fin 1; NaN]]) (mkArray 2 [[PInf; Fin (1 / 2)]])
              (mkArray 2 [[Fin 0; NInf]]) = Returns img /\
    forall i j, (i < nrows (mkArray 2 [[Fin 1; NaN]]))%nat ->
                (j < ncols (mkArray 2 [[Fin 1; NaN]]))%nat ->
      in_unit (fst (fst (rgb_px img i j))) /\
      in_unit (snd (fst (rgb_px img i j))) /\
      in_unit (snd (rgb_px img i j)).
Proof.
  apply (RGB_image_unit_range (mkArray 2 [[Fin 1; NaN]])
           (mkArray 2 [[PInf; Fin (1 / 2)]]) (mkArray 2 [[Fin 0; NInf]])).
  - repeat constructor.
  - repeat constructor.
  - repeat constructor.
  - reflexivity.
  - reflexivity.
  - intros i j. unfold px. cbn [rows].
    destruct i as [|[|i]], j as [|[|[|j]]]; cbn; repeat split; lra.
Defined.

(** ** The outcome by the lower limit *)

(** X22. A negative lower limit stops [logScaleImage] with a ValueError,
    raised by the constructor of the stretch; the store is as before. *)
Theorem logScaleImage_negative_limit
    (h : store) (image : ref) (return_full : bool) (vmin vmax : R) :
  limits (h image) = Returns (vmin, vmax) -> vmin < 0 ->
  logScaleImage image return_full h = (Raises ValueError, h).
Proof.
  intros E N. apply (logScaleImage_rejects _ _ _ _ _ E).
  apply coefficient_rejected; [exact (limits_ordered _ _ _ E) | left; exact N].
Qed.

Lemma limits_m3_m1 :
  limits (mkArray 2 [[Fin (-3); Fin (-1)]]) = Returns (-14 / 5, -1001 / 1000).
Proof. rewrite limits_pair by lra. do 2 f_equal; field. Qed.

Lemma logScaleImage_negative_limit_witness :
  logScaleImage 0%nat true (store_of (mkArray 2 [[Fin (-3); Fin (-1)]])) =
  (Raises ValueError, store_of (mkArray 2 [[Fin (-3); Fin (-1)]])).
Proof.
  apply (logScaleImage_negative_limit (store_of (mkArray 2 [[Fin (-3); Fin (-1)]]))
           0%nat true (-14 / 5) (-1001 / 1000)).
  - exact limits_m3_m1.
  - lra.
Defined.



